(** * channeljs: a shallow embedding of [src/src/index.ts] (Channel, Tx, Rx)

    The registry is a JavaScript [Map] from messages to [Set] objects of
    listener references.  Both are modelled with their ECMAScript semantics:
    - a [Map] is an insertion-ordered association list; [Map.set] on a new
      key appends, on an existing key replaces in place;
    - a [Set] object lives in a store of set objects (the [Map] holds its
      address, and [Tx.send] keeps the address in its local [listeners]);
      its [[SetData]] is a list of [option fref]: [Set.delete] overwrites
      the entry with a hole ([None]), [Set.add] appends when the value is
      absent, and a [for..of] iterator walks the list by index, re-reading
      its length at every step (so it sees deletions and additions made
      while it runs).

    Function objects are compared by reference.  A listener reference is
    either a user function (identified by a number, its body given by the
    section variable [beh]) or a trampoline allocated by [once]/[onweak]
    (identified by its allocation index). *)

From Stdlib Require Import List Bool Arith Lia.
Import ListNotations.

Definition msg := nat.
Definition arg := nat.

(** References to function objects. *)
Inductive fref :=
| UserRef (u : nat)
| TrampRef (k : nat).

Definition fref_eqb (r1 r2 : fref) : bool :=
  match r1, r2 with
  | UserRef a, UserRef b => Nat.eqb a b
  | TrampRef a, TrampRef b => Nat.eqb a b
  | _, _ => false
  end.

Lemma fref_eq_dec (x y : fref) : {x = y} + {x <> y}.
Proof. decide equality; apply Nat.eq_dec. Defined.

Lemma fref_eqb_spec r1 r2 : fref_eqb r1 r2 = true <-> r1 = r2.
Proof.
  destruct r1, r2; simpl; split; intro H; try discriminate;
    try (apply Nat.eqb_eq in H; subst; reflexivity);
    try (injection H as ->; apply Nat.eqb_refl).
Qed.

(** The closures created by [Rx.once] ([function f] that calls
    [self.off(msg, f)] then [listener(...args)]) and by [Rx.onweak]
    ([function f] that derefs a [WeakRef] of [listener]). *)
Inductive tramp :=
| TOnce (m : msg) (u : nat)
| TWeak (m : msg) (u : nat).

(** What the body of a user listener does after being entered: calls on
    the receiver or the channel that are in scope, or [throw]. *)
Inductive action :=
| AOff (m : msg) (r : fref)
| AOn (m : msg) (r : fref)
| AClear
| AThrow.

Record state := mkState {
  subs : list (msg * nat);              (* the channel's #subscribers Map *)
  sets : list (list (option fref));     (* store of Set objects *)
  tramps : list tramp;                  (* trampoline closures *)
  dead : list nat;                      (* user functions already collected *)
  trace : list (nat * list arg)         (* user listener invocations *)
}.

Definition empty_state : state := mkState [] [] [] [] [].

Definition with_subs st s := mkState s (sets st) (tramps st) (dead st) (trace st).
Definition with_sets st s := mkState (subs st) s (tramps st) (dead st) (trace st).
Definition with_tramps st t := mkState (subs st) (sets st) t (dead st) (trace st).
Definition with_trace st t := mkState (subs st) (sets st) (tramps st) (dead st) t.

(** ** ECMAScript [Map] over message keys *)

Fixpoint map_get (l : list (msg * nat)) (m : msg) : option nat :=
  match l with
  | [] => None
  | (k, v) :: t => if Nat.eqb k m then Some v else map_get t m
  end.

Fixpoint map_set (l : list (msg * nat)) (m : msg) (v : nat) : list (msg * nat) :=
  match l with
  | [] => [(m, v)]
  | (k, w) :: t => if Nat.eqb k m then (k, v) :: t else (k, w) :: map_set t m v
  end.

Fixpoint map_delete (l : list (msg * nat)) (m : msg) : bool * list (msg * nat) :=
  match l with
  | [] => (false, [])
  | (k, w) :: t =>
      if Nat.eqb k m then (true, t)
      else let (b, t') := map_delete t m in (b, (k, w) :: t')
  end.

(** ** ECMAScript [Set] of function references *)

Definition is_entry (r : fref) (e : option fref) : bool :=
  match e with Some r' => fref_eqb r r' | None => false end.

Definition set_has (d : list (option fref)) (r : fref) : bool :=
  existsb (is_entry r) d.

Definition set_add (d : list (option fref)) (r : fref) : list (option fref) :=
  if set_has d r then d else d ++ [Some r].

Fixpoint set_delete (d : list (option fref)) (r : fref)
  : bool * list (option fref) :=
  match d with
  | [] => (false, [])
  | e :: t =>
      if is_entry r e then (true, None :: t)
      else let (b, t') := set_delete t r in (b, e :: t')
  end.

(** The live values of a set, in iteration order. *)
Fixpoint live (d : list (option fref)) : list fref :=
  match d with
  | [] => []
  | Some r :: t => r :: live t
  | None :: t => live t
  end.

Definition set_size (d : list (option fref)) : nat := length (live d).

(** ** Store of set objects *)

Fixpoint upd {A} (l : list A) (n : nat) (x : A) : list A :=
  match l, n with
  | [], _ => []
  | _ :: t, 0 => x :: t
  | y :: t, S n' => y :: upd t n' x
  end.

Definition get_set (st : state) (a : nat) : list (option fref) :=
  nth a (sets st) [].

Definition put_set (st : state) (a : nat) (d : list (option fref)) : state :=
  with_sets st (upd (sets st) a d).

(** ** A state and exception monad

    [Exn] is a JavaScript exception unwinding with the state reached when
    it was thrown; [NoFuel] marks a loop that ran out of its iteration
    budget (the source loop has none: a listener that keeps re-adding
    entries makes [for..of] run forever). *)

Inductive outcome (A : Type) :=
| Ok (a : A) (st : state)
| Exn (st : state)
| NoFuel.
Arguments Ok {A}.
Arguments Exn {A}.
Arguments NoFuel {A}.

Definition M (A : Type) := state -> outcome A.

Definition ret {A} (a : A) : M A := fun st => Ok a st.

Definition bind {A B} (c : M A) (k : A -> M B) : M B :=
  fun st => match c st with
            | Ok a st' => k a st'
            | Exn st' => Exn st'
            | NoFuel => NoFuel
            end.

Notation "x <- c ;; k" := (bind c (fun x => k))
  (at level 61, c at next level, right associativity).
Notation "c ;; k" := (bind c (fun _ => k))
  (at level 61, right associativity).

Definition throw {A} : M A := fun st => Exn st.

(** ** Channel, Rx and Tx *)

Section Channel.

(** The bodies of the user listeners. *)
Variable beh : nat -> list action.

(** [Channel.clear()]: [this.#subscribers.clear()] (the Map only; the
    Set objects survive in the store). *)
Definition clear : M unit := fun st => Ok tt (with_subs st []).

(** [Rx.on]: [get]; [add] to the existing Set or [set] a new Set
    [new Set([listener])]; returns the listener. *)
Definition on (m : msg) (r : fref) : M fref := fun st =>
  match map_get (subs st) m with
  | Some a => Ok r (put_set st a (set_add (get_set st a) r))
  | None =>
      let a := length (sets st) in
      Ok r (with_subs (with_sets st (sets st ++ [[Some r]])) (map_set (subs st) m a))
  end.

(** [Rx.off]: [!!this.#subscribers.get(msg)?.delete(listener)]. *)
Definition off (m : msg) (r : fref) : M bool := fun st =>
  match map_get (subs st) m with
  | None => Ok false st
  | Some a =>
      let (b, d') := set_delete (get_set st a) r in Ok b (put_set st a d')
  end.

(** [Rx.off_all] of the variant in [src/unnamed/part_001] (lines 181-183):
    [this.#subscribers.delete(msg)]. *)
Definition off_all (m : msg) : M bool := fun st =>
  let (b, s') := map_delete (subs st) m in Ok b (with_subs st s').

(** [Channel.messages] of the variant in [src/unnamed/part_001] (lines
    41-43): [Array.from(this.#subscribers.keys())]. *)
Definition messages (st : state) : list msg := map fst (subs st).

(** Allocation of a fresh trampoline closure. *)
Definition alloc_tramp (t : tramp) : M fref := fun st =>
  Ok (TrampRef (length (tramps st))) (with_tramps st (tramps st ++ [t])).

(** [Rx.once]: [return this.on(msg, function f ...)], i.e. it returns what
    [on] returns for the trampoline. *)
Definition once (m : msg) (u : nat) : M fref :=
  f <- alloc_tramp (TOnce m u) ;;
  on m f.

(** Values returned to the caller of [onweak]: a function reference or a
    [WeakRef] object wrapping user listener [u]. *)
Inductive value :=
| VFn (r : fref)
| VWeakRef (u : nat).

(** [Rx.onweak] of [src/src/index.ts]: registers the trampoline and
    [return listener]. *)
Definition onweak (m : msg) (u : nat) : M value :=
  f <- alloc_tramp (TWeak m u) ;;
  on m f ;;
  ret (VFn (UserRef u)).

(** [Rx.onweak] of the variant in [src/unnamed/part_001] (lines 153-163),
    which ends with [return ref]. *)
Definition onweak_ref (m : msg) (u : nat) : M value :=
  f <- alloc_tramp (TWeak m u) ;;
  on m f ;;
  ret (VWeakRef u).

Fixpoint run_actions (l : list action) : M unit :=
  match l with
  | [] => ret tt
  | AOff m r :: t => off m r ;; run_actions t
  | AOn m r :: t => on m r ;; run_actions t
  | AClear :: t => clear ;; run_actions t
  | AThrow :: _ => throw
  end.

(** Entering user listener [u] with [args]: the call is recorded, then its
    body runs. *)
Definition call_user (u : nat) (args : list arg) : M unit := fun st =>
  run_actions (beh u) (with_trace st (trace st ++ [(u, args)])).

(** Calling a function reference [cb(...args)]. *)
Definition call (r : fref) (args : list arg) : M unit := fun st =>
  match r with
  | UserRef u => call_user u args st
  | TrampRef k =>
      match nth_error (tramps st) k with
      | Some (TOnce m u) =>
          (* self.off(msg, f); listener(...args); *)
          (off m r ;; call_user u args) st
      | Some (TWeak m u) =>
          (* const listener = ref.deref();
             if (listener) listener(...args); else self.off(msg, f); *)
          if existsb (Nat.eqb u) (dead st) then (off m r ;; ret tt) st
          else call_user u args st
      | None => Ok tt st
      end
  end.

(** [for (const cb of listeners) cb(...args);] over the Set at address
    [a], from iterator index [i]. *)
Fixpoint iter (fuel : nat) (a i : nat) (args : list arg) : M unit := fun st =>
  match fuel with
  | 0 => NoFuel
  | S f =>
      match nth_error (get_set st a) i with
      | None => Ok tt st
      | Some None => iter f a (S i) args st
      | Some (Some r) => (call r args ;; iter f a (S i) args) st
      end
  end.

(** [Tx.send]. *)
Definition send (fuel : nat) (m : msg) (args : list arg) : M bool := fun st =>
  match map_get (subs st) m with
  | Some a =>
      if 0 <? set_size (get_set st a)
      then (iter fuel a 0 args ;; ret true) st
      else Ok false st
  | None => Ok false st
  end.

End Channel.

(** ** [Tx.send_async] and the timer queue

    [new Promise((resolve) => setTimeout(() => resolve(this.send(msg,
    ...args)), 0))]: the executor runs at once and only queues a timer
    task; the task later calls [send] and passes its result to [resolve].
    An exception thrown by [send] leaves the timer callback before
    [resolve] runs: the host reports it as an uncaught error, and nothing
    else holds [resolve] or [reject]. *)

Inductive pstate :=
| Pending
| Resolved (b : bool)
| Rejected.

Record world := mkWorld {
  reg : state;
  promises : list pstate;
  timers : list (msg * list arg * nat);   (* FIFO: message, args, promise *)
  uncaught : nat                          (* errors reported by the host *)
}.

Definition send_async (m : msg) (args : list arg) (w : world) : nat * world :=
  let p := length (promises w) in
  (p, mkWorld (reg w) (promises w ++ [Pending]) (timers w ++ [(m, args, p)])
              (uncaught w)).

(** One turn of the host scheduler running the oldest timer; [None] when
    the listener loop ran out of fuel. *)
Definition run_timer (beh : nat -> list action) (fuel : nat) (w : world)
  : option world :=
  match timers w with
  | [] => Some w
  | (m, args, p) :: rest =>
      match send beh fuel m args (reg w) with
      | Ok b st => Some (mkWorld st (upd (promises w) p (Resolved b)) rest (uncaught w))
      | Exn st => Some (mkWorld st (promises w) rest (S (uncaught w)))
      | NoFuel => None
      end
  end.

(** ** The static association table [Channel.#channels]

    [static #channels: WeakMap<object, Channel>]; [has], [get] and [add]
    of [src/src/index.ts] lines 19-31.  A host object is a number; a
    channel is identified by the address of its [#subscribers] Map. *)
Module Assoc.

Record table := mkTable {
  channels : list (nat * nat);  (* host -> subscribers Map of its Channel *)
  next : nat                    (* next fresh Channel *)
}.

Inductive result (A : Type) :=
| RVal (a : A) (t : table)
| RThrow (t : table).            (* a TypeError *)
Arguments RVal {A}.
Arguments RThrow {A}.

(** [return this.#channels.has(target);] *)
Definition has (h : nat) (t : table) : bool :=
  match map_get (channels t) h with Some _ => true | None => false end.

(** [return this.#channels.get(target)!.#subscribers;]: reading a private
    field of [undefined] throws a TypeError. *)
Definition get (h : nat) (t : table) : result nat :=
  match map_get (channels t) h with
  | Some c => RVal c t
  | None => RThrow t
  end.

(** [this.#channels.set(target, new Channel);] *)
Definition add (h : nat) (t : table) : result unit :=
  RVal tt (mkTable (map_set (channels t) h (next t)) (S (next t))).

End Assoc.

(** ** Observations on states *)

(** What calling [r] delivers to user listeners, when bodies do nothing
    to the registry. *)
Definition calls_of (st : state) (r : fref) (args : list arg)
  : list (nat * list arg) :=
  match r with
  | UserRef u => [(u, args)]
  | TrampRef k =>
      match nth_error (tramps st) k with
      | Some (TOnce _ u) => [(u, args)]
      | Some (TWeak _ u) => if existsb (Nat.eqb u) (dead st) then [] else [(u, args)]
      | None => []
      end
  end.

(** Whether calling [r] may enter user listener [u]. *)
Definition reaches (st : state) (r : fref) (u : nat) : bool :=
  match r with
  | UserRef v => Nat.eqb v u
  | TrampRef k =>
      match nth_error (tramps st) k with
      | Some (TOnce _ v) | Some (TWeak _ v) => Nat.eqb v u
      | None => false
      end
  end.

Definition opt_is (o : option nat) (a : nat) : bool :=
  match o with Some b => Nat.eqb b a | None => false end.

(** Whether calling [r] deletes [r] from the Set at address [a]. *)
Definition self_removes (st : state) (a : nat) (r : fref) : bool :=
  match r with
  | UserRef _ => false
  | TrampRef k =>
      match nth_error (tramps st) k with
      | Some (TOnce m _) => opt_is (map_get (subs st) m) a
      | Some (TWeak m u) =>
          existsb (Nat.eqb u) (dead st) && opt_is (map_get (subs st) m) a
      | None => false
      end
  end.

Definition after_call (st : state) (a : nat) (e : option fref) : option fref :=
  match e with
  | None => None
  | Some r => if self_removes st a r then None else Some r
  end.

Fixpoint nodupb (l : list fref) : bool :=
  match l with
  | [] => true
  | x :: t => negb (existsb (fref_eqb x) t) && nodupb t
  end.

(** The Set registered under [m] is a valid address, holds no value twice
    and refers only to allocated trampolines. *)
Definition wf_msg (st : state) (m : msg) : bool :=
  match map_get (subs st) m with
  | None => true
  | Some a =>
      (a <? length (sets st)) && nodupb (live (get_set st a))
      && forallb (fun r => match r with
                           | TrampRef k => k <? length (tramps st)
                           | UserRef _ => true
                           end) (live (get_set st a))
  end.

(** User listeners whose bodies touch nothing and do not throw. *)
Definition passive (beh : nat -> list action) : Prop := forall u, beh u = [].

(** The calls recorded for user listener [u]. *)
Definition calls_to (u : nat) (tr : list (nat * list arg)) : list (nat * list arg) :=
  filter (fun x => Nat.eqb (fst x) u) tr.

Definition same_ctx (st st' : state) : Prop :=
  subs st' = subs st /\ tramps st' = tramps st /\ dead st' = dead st.

(** ** General lemmas *)

Lemma live_app d1 d2 : live (d1 ++ d2) = live d1 ++ live d2.
Proof. induction d1 as [|[x|] d1 IH]; simpl; f_equal; auto. Qed.

Lemma nodupb_NoDup l : nodupb l = true -> NoDup l.
Proof.
  induction l as [|x t IH]; simpl; intro H; constructor.
  - apply andb_true_iff in H as [H _]. apply negb_true_iff in H.
    intro Hin. assert (existsb (fref_eqb x) t = true) by
      (apply existsb_exists; exists x; split; [exact Hin | apply fref_eqb_spec; reflexivity]).
    congruence.
  - apply IH. apply andb_true_iff in H as [_ H]. exact H.
Qed.

Lemma length_upd {A} (l : list A) n x : length (upd l n x) = length l.
Proof. revert n; induction l; intros [|n]; simpl; auto. Qed.

Lemma nth_upd_same {A} (l : list A) n x d : n < length l -> nth n (upd l n x) d = x.
Proof.
  revert n; induction l; intros [|n] H; simpl in *; try lia; auto.
  apply IHl; lia.
Qed.

Lemma nth_upd_other {A} (l : list A) n m x d : n <> m -> nth m (upd l n x) d = nth m l d.
Proof.
  revert n m; induction l; intros [|n] [|m] H; simpl; auto; try lia.
Qed.

Lemma set_delete_app p r s :
  ~ In r (live p) -> set_delete (p ++ Some r :: s) r = (true, p ++ None :: s).
Proof.
  induction p as [|[x|] p IH]; simpl; intro Hn.
  - assert (fref_eqb r r = true) by (apply fref_eqb_spec; reflexivity).
    rewrite H; reflexivity.
  - destruct (fref_eqb r x) eqn:E.
    + apply fref_eqb_spec in E; subst. exfalso; apply Hn; left; reflexivity.
    + rewrite IH; auto.
  - rewrite IH; auto.
Qed.

Lemma set_add_notin d r :
  ~ In r (live d) -> set_add d r = d ++ [Some r].
Proof.
  intro Hn. unfold set_add, set_has.
  destruct (existsb (is_entry r) d) eqn:E; auto.
  apply existsb_exists in E as [[x|] [Hx Hr]]; simpl in Hr; try discriminate.
  apply fref_eqb_spec in Hr; subst. exfalso; apply Hn.
  clear -Hx. induction d as [|[y|] d IH]; simpl in *.
  - contradiction.
  - destruct Hx as [Hx|Hx]; [injection Hx as ->; left; reflexivity | right; auto].
  - destruct Hx as [Hx|Hx]; [discriminate | auto].
Qed.

Lemma set_add_in d r :
  In r (live d) -> set_add d r = d.
Proof.
  intro Hin. unfold set_add, set_has.
  replace (existsb (is_entry r) d) with true; auto. symmetry.
  apply existsb_exists. clear -Hin.
  induction d as [|[y|] d IH]; simpl in *; try contradiction.
  - destruct Hin as [->|Hin].
    + exists (Some r); split; [left; reflexivity|]. simpl. apply fref_eqb_spec; reflexivity.
    + destruct (IH Hin) as [x [Hx1 Hx2]]. exists x; auto.
  - destruct (IH Hin) as [x [Hx1 Hx2]]. exists x; auto.
Qed.

Lemma calls_of_ctx st st' r args :
  same_ctx st st' -> calls_of st' r args = calls_of st r args.
Proof. intros (_ & Ht & Hd). destruct r; simpl; rewrite ?Ht, ?Hd; reflexivity. Qed.

Lemma after_call_ctx st st' a e :
  same_ctx st st' -> after_call st' a e = after_call st a e.
Proof.
  intros (Hs & Ht & Hd). destruct e as [[u|k]|]; simpl; auto.
  unfold self_removes; rewrite Hs, Ht, Hd; reflexivity.
Qed.

Lemma same_ctx_trans s1 s2 s3 : same_ctx s1 s2 -> same_ctx s2 s3 -> same_ctx s1 s3.
Proof. unfold same_ctx; intros (? & ? & ?) (? & ? & ?); repeat split; congruence. Qed.

Lemma nth_error_mid {A} (p s : list A) x : nth_error (p ++ x :: s) (length p) = Some x.
Proof. induction p; simpl; auto. Qed.

Lemma nth_error_end {A} (p : list A) : nth_error (p ++ []) (length p) = None.
Proof. induction p; simpl; auto. Qed.

(** [Rx.off] on a Set at address [a] holding [r] once, at position
    [length p]. *)
Lemma off_at st m r p s a :
  a < length (sets st) -> get_set st a = p ++ Some r :: s -> ~ In r (live p) ->
  exists b st', off m r st = Ok b st' /\ same_ctx st st' /\ trace st' = trace st
    /\ length (sets st') = length (sets st)
    /\ get_set st' a = p ++ (if opt_is (map_get (subs st) m) a then None else Some r) :: s.
Proof.
  intros Ha Hget Hn. unfold off.
  destruct (map_get (subs st) m) as [b|] eqn:Hm; simpl.
  - destruct (Nat.eqb_spec b a) as [->|Hba].
    + rewrite Hget, set_delete_app by exact Hn.
      do 2 eexists; split; [reflexivity|].
      unfold put_set, same_ctx, get_set; simpl.
      repeat split; auto using length_upd. apply nth_upd_same; exact Ha.
    + destruct (set_delete (get_set st b) r) as [bb d'].
      do 2 eexists; split; [reflexivity|].
      unfold put_set, same_ctx, get_set in *; simpl.
      repeat split; auto using length_upd. rewrite nth_upd_other; auto.
  - do 2 eexists; split; [reflexivity|]. repeat split; auto.
Qed.

Section Passive.

Variable beh : nat -> list action.
Hypothesis Hpas : passive beh.

Lemma call_user_passive u args st :
  call_user beh u args st = Ok tt (with_trace st (trace st ++ [(u, args)])).
Proof. unfold call_user. rewrite Hpas. reflexivity. Qed.

(** One listener call: the trampolines of [once] (and of [onweak] for a
    collected target) delete their own entry; nothing else changes. *)
Lemma call_passive st r args p s a :
  a < length (sets st) -> get_set st a = p ++ Some r :: s -> ~ In r (live p) ->
  exists st', call beh r args st = Ok tt st' /\ same_ctx st st'
    /\ trace st' = trace st ++ calls_of st r args
    /\ length (sets st') = length (sets st)
    /\ get_set st' a = p ++ after_call st a (Some r) :: s.
Proof.
  intros Ha Hget Hn. destruct r as [u|k]; simpl.
  - rewrite call_user_passive. eexists; split; [reflexivity|].
    unfold same_ctx; simpl. repeat split; auto.
  - unfold self_removes. destruct (nth_error (tramps st) k) as [[m u|m u]|] eqn:Hk.
    + destruct (off_at st m (TrampRef k) p s a Ha Hget Hn)
        as (b & st1 & Hoff & Hc & Htr & Hlen & Hg).
      unfold bind. rewrite Hoff, call_user_passive.
      eexists; split; [reflexivity|].
      unfold same_ctx in *; simpl. rewrite Htr. repeat split; try tauto.
    + destruct (existsb (Nat.eqb u) (dead st)) eqn:Hd; simpl.
      * destruct (off_at st m (TrampRef k) p s a Ha Hget Hn)
          as (b & st1 & Hoff & Hc & Htr & Hlen & Hg).
        unfold bind. rewrite Hoff.
        eexists; split; [reflexivity|].
        rewrite Htr, app_nil_r. repeat split; auto; apply Hc.
      * rewrite call_user_passive. eexists; split; [reflexivity|].
        unfold same_ctx; simpl. repeat split; auto.
    + eexists; split; [reflexivity|]. rewrite app_nil_r.
      unfold same_ctx; repeat split; auto.
Qed.

(** The [for..of] loop from index [length p] over the remaining entries
    [s]: each live entry is called once, in order. *)
Lemma iter_passive args a : forall s p st fuel,
  a < length (sets st) -> get_set st a = p ++ s -> NoDup (live (p ++ s)) ->
  length s < fuel ->
  exists st', iter beh fuel a (length p) args st = Ok tt st' /\ same_ctx st st'
    /\ trace st' = trace st ++ concat (map (fun r => calls_of st r args) (live s))
    /\ length (sets st') = length (sets st)
    /\ get_set st' a = p ++ map (after_call st a) s.
Proof.
  induction s as [|x s0 IH]; intros p st fuel Ha Hget Hnd Hf;
    (destruct fuel as [|f]; [simpl in Hf; lia|]).
  - simpl. rewrite Hget, nth_error_end. eexists; split; [reflexivity|].
    rewrite app_nil_r. unfold same_ctx; repeat split; auto.
  - simpl. rewrite Hget, nth_error_mid. simpl in Hf.
    destruct x as [r|].
    + rewrite live_app in Hnd; simpl in Hnd.
      assert (Hn : ~ In r (live p)).
      { intro Hin. apply (NoDup_remove_2 _ _ _ Hnd). apply in_or_app; left; exact Hin. }
      destruct (call_passive st r args p s0 a Ha Hget Hn)
        as (st1 & Hcall & Hc1 & Htr1 & Hl1 & Hg1).
      unfold bind. rewrite Hcall.
      set (y := after_call st a (Some r)) in *.
      destruct (IH (p ++ [y]) st1 f) as (st2 & Hit & Hc2 & Htr2 & Hl2 & Hg2).
      * lia.
      * rewrite Hg1, <- app_assoc; reflexivity.
      * rewrite <- app_assoc, live_app. simpl.
        unfold y, after_call. destruct (self_removes st a r); simpl.
        -- exact (NoDup_remove_1 _ _ _ Hnd).
        -- exact Hnd.
      * lia.
      * rewrite length_app in Hit; simpl in Hit. rewrite Nat.add_1_r in Hit.
        rewrite Hit. eexists; split; [reflexivity|].
        split; [eapply same_ctx_trans; eauto|].
        split; [|split; [congruence|]].
        -- rewrite Htr2, Htr1, <- app_assoc. simpl. f_equal.
           destruct (map_ext (fun r0 => calls_of st1 r0 args)
                             (fun r0 => calls_of st r0 args)
                             (fun r0 => calls_of_ctx st st1 r0 args Hc1) (live s0))
             as [].
           reflexivity.
        -- rewrite Hg2, <- app_assoc. simpl. f_equal. f_equal.
           apply map_ext. intro e. apply after_call_ctx. exact Hc1.
    + destruct (IH (p ++ [None]) st f) as (st2 & Hit & Hc2 & Htr2 & Hl2 & Hg2).
      * exact Ha.
      * rewrite Hget, <- app_assoc; reflexivity.
      * rewrite <- app_assoc; exact Hnd.
      * lia.
      * rewrite length_app in Hit; simpl in Hit. rewrite Nat.add_1_r in Hit.
        rewrite Hit. eexists; split; [reflexivity|].
        split; [exact Hc2|]. split; [exact Htr2|]. split; [exact Hl2|].
        rewrite Hg2, <- app_assoc; reflexivity.
Qed.

(** [Tx.send] over a non-empty Set: every live entry present at the start
    is called exactly once, in insertion order. *)
Lemma send_passive st m args fuel a :
  map_get (subs st) m = Some a -> a < length (sets st) ->
  NoDup (live (get_set st a)) -> 0 < set_size (get_set st a) ->
  length (get_set st a) < fuel ->
  exists st', send beh fuel m args st = Ok true st' /\ same_ctx st st'
    /\ trace st' = trace st ++ concat (map (fun r => calls_of st r args) (live (get_set st a)))
    /\ length (sets st') = length (sets st)
    /\ get_set st' a = map (after_call st a) (get_set st a).
Proof.
  intros Hm Ha Hnd Hsz Hf. unfold send. rewrite Hm.
  replace (0 <? set_size (get_set st a)) with true by (symmetry; apply Nat.ltb_lt; exact Hsz).
  destruct (iter_passive args a (get_set st a) [] st fuel Ha eq_refl Hnd Hf)
    as (st' & Hit & Hc & Htr & Hl & Hg).
  unfold bind. simpl in Hit. rewrite Hit. eexists; split; [reflexivity|].
  split; [exact Hc|]. split; [exact Htr|]. split; [exact Hl|]. exact Hg.
Qed.

End Passive.

(** ** Shapes of [on] and [once] *)

(** The Set currently registered under [m], or none. *)
Definition msg_set (st : state) (m : msg) : list (option fref) :=
  match map_get (subs st) m with Some a => get_set st a | None => [] end.

Definition wf_at (st : state) (a : nat) : Prop :=
  a < length (sets st) /\ NoDup (live (get_set st a))
  /\ (forall k, In (TrampRef k) (live (get_set st a)) -> k < length (tramps st)).

Lemma wf_msg_spec st m a :
  wf_msg st m = true -> map_get (subs st) m = Some a -> wf_at st a.
Proof.
  unfold wf_msg. intros H Hm. rewrite Hm in H.
  apply andb_true_iff in H as [H H3]. apply andb_true_iff in H as [H1 H2].
  split; [apply Nat.ltb_lt; exact H1|]. split; [apply nodupb_NoDup; exact H2|].
  intros k Hk. rewrite forallb_forall in H3. specialize (H3 _ Hk).
  apply Nat.ltb_lt; exact H3.
Qed.

Lemma map_get_set_same l m v : map_get (map_set l m v) m = Some v.
Proof.
  induction l as [|[k w] t IH]; simpl.
  - rewrite Nat.eqb_refl; reflexivity.
  - destruct (Nat.eqb k m) eqn:E; simpl; rewrite E; auto.
Qed.

Lemma upd_nth {A} (l : list A) n d : upd l n (nth n l d) = l.
Proof. revert n; induction l; intros [|n]; simpl; f_equal; auto. Qed.

Lemma upd_oob {A} (l : list A) n x : length l <= n -> upd l n x = l.
Proof. revert n; induction l; intros [|n] H; simpl in *; try lia; f_equal; auto with arith. Qed.

Lemma upd_upd {A} (l : list A) n x y : upd (upd l n x) n y = upd l n y.
Proof. revert n; induction l; intros [|n]; simpl; f_equal; auto. Qed.

Lemma nth_app_end {A} (l : list A) x d : nth (length l) (l ++ [x]) d = x.
Proof. induction l; simpl; auto. Qed.

Lemma upd_last {A} (l : list A) x y : upd (l ++ [x]) (length l) y = l ++ [y].
Proof. induction l; simpl; f_equal; auto. Qed.

Lemma state_eta st : with_sets st (sets st) = st.
Proof. destruct st; reflexivity. Qed.

Lemma NoDup_snoc {A} (l : list A) x : NoDup l -> ~ In x l -> NoDup (l ++ [x]).
Proof.
  intros H Hn. apply NoDup_app; auto.
  - constructor; auto. constructor.
  - intros y Hy [<-|[]]. contradiction.
Qed.

(** [Rx.on] on a well-formed message: the Set under [m] becomes
    [set_add] of the previous one (a fresh Set when there was none). *)
Lemma on_shape st m r :
  (forall a, map_get (subs st) m = Some a -> wf_at st a) ->
  exists a1 st1, on m r st = Ok r st1 /\ map_get (subs st1) m = Some a1
    /\ get_set st1 a1 = set_add (msg_set st m) r
    /\ a1 < length (sets st1) /\ length (sets st) <= length (sets st1)
    /\ tramps st1 = tramps st /\ dead st1 = dead st /\ trace st1 = trace st.
Proof.
  intros Hwf. unfold on, msg_set.
  destruct (map_get (subs st) m) as [a|] eqn:Hm.
  - destruct (Hwf a eq_refl) as (Ha & _ & _).
    exists a; eexists; split; [reflexivity|].
    unfold put_set, get_set; simpl. rewrite length_upd.
    repeat split; auto. apply nth_upd_same; exact Ha.
  - exists (length (sets st)); eexists; split; [reflexivity|].
    unfold get_set; simpl. rewrite length_app; simpl.
    repeat split; try lia; auto.
    + apply map_get_set_same.
    + rewrite nth_app_end; reflexivity.
Qed.

Lemma tramp_fresh st a :
  wf_at st a -> ~ In (TrampRef (length (tramps st))) (live (get_set st a)).
Proof. intros (_ & _ & Hk) Hin. specialize (Hk _ Hin). lia. Qed.

(** [Rx.once] on a well-formed message: a fresh trampoline, appended. *)
Lemma once_shape st m u :
  (forall a, map_get (subs st) m = Some a -> wf_at st a) ->
  exists a1 st1, once m u st = Ok (TrampRef (length (tramps st))) st1
    /\ map_get (subs st1) m = Some a1
    /\ get_set st1 a1 = msg_set st m ++ [Some (TrampRef (length (tramps st)))]
    /\ wf_at st1 a1
    /\ tramps st1 = tramps st ++ [TOnce m u] /\ dead st1 = dead st
    /\ trace st1 = trace st.
Proof.
  intros Hwf. set (f := TrampRef (length (tramps st))).
  set (st0 := with_tramps st (tramps st ++ [TOnce m u])).
  assert (Hwf0 : forall a, map_get (subs st0) m = Some a -> wf_at st0 a).
  { intros a Ha. destruct (Hwf a Ha) as (H1 & H2 & H3). split; [exact H1|].
    split; [exact H2|]. intros k Hk. simpl. rewrite length_app; simpl.
    specialize (H3 k Hk). lia. }
  destruct (on_shape st0 m f Hwf0) as (a1 & st1 & Hon & Hm1 & Hg1 & Ha1 & Hl1 & Ht1 & Hd1 & Htr1).
  assert (Hnotin : ~ In f (live (msg_set st m))).
  { unfold msg_set. destruct (map_get (subs st) m) as [a|] eqn:Hm; [|simpl; tauto].
    apply tramp_fresh, Hwf. reflexivity. }
  assert (Hms : msg_set st0 m = msg_set st m) by reflexivity.
  rewrite Hms, set_add_notin in Hg1 by exact Hnotin.
  exists a1, st1. split; [exact Hon|]. split; [exact Hm1|]. split; [exact Hg1|].
  split; [|split; [exact Ht1|split; [exact Hd1|exact Htr1]]].
  split; [exact Ha1|]. rewrite Hg1, live_app. simpl. split.
  - apply NoDup_snoc; [|exact Hnotin]. unfold msg_set.
    destruct (map_get (subs st) m) as [a|] eqn:Hm; [apply (Hwf a eq_refl)|constructor].
  - intros k Hk. rewrite Ht1. simpl. rewrite length_app; simpl.
    apply in_app_or in Hk as [Hk|[Hk|[]]].
    + unfold msg_set in Hk. destruct (map_get (subs st) m) as [a|] eqn:Hm; [|contradiction].
      destruct (Hwf a eq_refl) as (_ & _ & H3). specialize (H3 k Hk). lia.
    + injection Hk as <-. lia.
Qed.

(** ** Counting deliveries *)

Lemma calls_to_app u l1 l2 : calls_to u (l1 ++ l2) = calls_to u l1 ++ calls_to u l2.
Proof. apply filter_app. Qed.

Lemma calls_of_unreached st r u args :
  reaches st r u = false -> calls_to u (calls_of st r args) = [].
Proof.
  unfold calls_to. destruct r as [v|k]; simpl.
  - intros ->; reflexivity.
  - destruct (nth_error (tramps st) k) as [[m v|m v]|]; simpl; auto.
    + intros ->; reflexivity.
    + intros H. destruct (existsb (Nat.eqb v) (dead st)); simpl; rewrite ?H; reflexivity.
Qed.

Lemma calls_to_concat_nil st u args l :
  (forall r, In r l -> reaches st r u = false) ->
  calls_to u (concat (map (fun r => calls_of st r args) l)) = [].
Proof.
  induction l as [|r l IH]; simpl; intro H; auto.
  rewrite calls_to_app, calls_of_unreached, IH; auto.
Qed.

Lemma reaches_ctx st st' r u : same_ctx st st' -> reaches st' r u = reaches st r u.
Proof. intros (_ & Ht & _). destruct r; simpl; rewrite ?Ht; reflexivity. Qed.

Lemma reaches_tramps st st' r u : tramps st' = tramps st -> reaches st' r u = reaches st r u.
Proof. intros Ht. destruct r; simpl; rewrite ?Ht; reflexivity. Qed.

Lemma reaches_ext st st' x r u :
  tramps st' = tramps st ++ x ->
  (forall k, r = TrampRef k -> k < length (tramps st)) ->
  reaches st' r u = reaches st r u.
Proof.
  intros Ht Hb. destruct r as [v|k]; simpl; auto.
  rewrite Ht, nth_error_app1; auto.
Qed.

Lemma calls_of_ext st st' x r args :
  tramps st' = tramps st ++ x -> dead st' = dead st ->
  (forall k, r = TrampRef k -> k < length (tramps st)) ->
  calls_of st' r args = calls_of st r args.
Proof.
  intros Ht Hd Hb. destruct r as [v|k]; simpl; auto.
  rewrite Ht, Hd, nth_error_app1; auto.
Qed.

Lemma live_after_in st a d r :
  In r (live (map (after_call st a) d)) -> In r (live d).
Proof.
  induction d as [|[x|] d IH]; simpl; auto.
  destruct (self_removes st a x); simpl; intuition.
Qed.

Lemma NoDup_live_after st a d :
  NoDup (live d) -> NoDup (live (map (after_call st a) d)).
Proof.
  induction d as [|[x|] d IH]; simpl; auto.
  intro H. inversion H as [|? ? Hn Hnd]; subst.
  destruct (self_removes st a x); simpl; auto.
  constructor; auto. intro Hin. apply Hn. eapply live_after_in; eauto.
Qed.

Lemma msg_set_wf st m :
  (forall a, map_get (subs st) m = Some a -> wf_at st a) ->
  NoDup (live (msg_set st m))
  /\ (forall k, In (TrampRef k) (live (msg_set st m)) -> k < length (tramps st)).
Proof.
  intro Hwf. unfold msg_set. destruct (map_get (subs st) m) as [a|] eqn:Hm.
  - destruct (Hwf a eq_refl) as (_ & H2 & H3); auto.
  - simpl; split; [constructor|tauto].
Qed.

Lemma send_empty beh fuel m args st :
  set_size (msg_set st m) = 0 -> send beh fuel m args st = Ok false st.
Proof.
  unfold send, msg_set. destruct (map_get (subs st) m); auto.
  intros ->. reflexivity.
Qed.

Lemma self_removes_once st a k m u :
  nth_error (tramps st) k = Some (TOnce m u) -> map_get (subs st) m = Some a ->
  self_removes st a (TrampRef k) = true.
Proof. intros Hk Hm. simpl. rewrite Hk, Hm. simpl. apply Nat.eqb_refl. Qed.

Lemma calls_of_once st k m u args :
  nth_error (tramps st) k = Some (TOnce m u) -> calls_of st (TrampRef k) args = [(u, args)].
Proof. intros Hk. simpl. rewrite Hk. reflexivity. Qed.

Lemma set_size_pos d r : In r (live d) -> 0 < set_size d.
Proof. unfold set_size. destruct (live d); simpl; [tauto|lia]. Qed.

Lemma length_map_after st a d : length (map (after_call st a) d) = length d.
Proof. apply length_map. Qed.

(** ** Concrete programs used by the claims *)

(** A listener body that does nothing but being called. *)
Definition quiet_beh (u : nat) : list action := [].

(** Listener 1 unsubscribes listener 2 from message 0. *)
Definition skip_beh (u : nat) : list action :=
  if Nat.eqb u 1 then [AOff 0 (UserRef 2)] else [].


(** Listener 1 throws. *)
Definition throw_beh (u : nat) : list action :=
  if Nat.eqb u 1 then [AThrow] else [].

Lemma quiet_passive : passive quiet_beh.
Proof. intro u; reflexivity. Qed.

(** Listeners 1 then 2 subscribed to message 0 of a fresh channel. *)
Definition two_listeners : M fref := on 0 (UserRef 1) ;; on 0 (UserRef 2).

(** Listeners 2 then 1 subscribed to message 0 of a fresh channel. *)
Definition two_listeners_rev : M fref := on 0 (UserRef 2) ;; on 0 (UserRef 1).

(** ** C2: a [once] subscription fires once *)

(** C2: after [Rx.once(m, L)], [send(m, a)] then [send(m, b)] call [L]
    exactly once, with [a] and never with [b] (the other listeners of [m]
    being plain listeners that do not reach [L]); the trampoline runs
    [self.off(msg, f)] before it calls [L]. *)
Theorem once_fires_once beh fuel m u a b st :
  passive beh -> wf_msg st m = true ->
  (forall r, In r (live (msg_set st m)) -> reaches st r u = false) ->
  length (msg_set st m) + 1 < fuel ->
  exists st1 st2 st3 b2,
    once m u st = Ok (TrampRef (length (tramps st))) st1
    /\ send beh fuel m a st1 = Ok true st2
    /\ send beh fuel m b st2 = Ok b2 st3
    /\ calls_to u (trace st3) = calls_to u (trace st) ++ [(u, a)]
    /\ (forall beh' args st', tramps st' = tramps st1 ->
          call beh' (TrampRef (length (tramps st))) args st'
          = (off m (TrampRef (length (tramps st))) ;; call_user beh' u args) st').
Proof.
  intros Hpas Hwfb Hu Hf.
  assert (Hwf : forall a0, map_get (subs st) m = Some a0 -> wf_at st a0)
    by (intros; eapply wf_msg_spec; eauto).
  destruct (msg_set_wf st m Hwf) as [Hnd Hbd].
  destruct (once_shape st m u Hwf) as (a1 & st1 & Honce & Hm1 & Hg1 & Hwf1 & Ht1 & Hd1 & Htr1).
  set (k := length (tramps st)) in *.
  set (d := msg_set st m) in *.
  destruct Hwf1 as (Ha1 & Hnd1 & _).
  assert (Hk : nth_error (tramps st1) k = Some (TOnce m u))
    by (rewrite Ht1; apply (nth_error_mid (tramps st) [] (TOnce m u))).
  assert (Hsz : 0 < set_size (get_set st1 a1)).
  { rewrite Hg1. apply (set_size_pos _ (TrampRef k)). rewrite live_app.
    apply in_or_app; right; left; reflexivity. }
  assert (Hf1 : length (get_set st1 a1) < fuel) by (rewrite Hg1, length_app; simpl; lia).
  destruct (send_passive beh Hpas st1 m a fuel a1 Hm1 Ha1 Hnd1 Hsz Hf1)
    as (st2 & Hs1 & Hc2 & Htr2 & Hl2 & Hg2).
  assert (Hreach : forall r, In r (live d) -> reaches st1 r u = false).
  { intros r Hr. rewrite (reaches_ext st st1 [TOnce m u]); auto.
    intros k' ->. apply Hbd; exact Hr. }
  assert (T1 : calls_to u (trace st2) = calls_to u (trace st) ++ [(u, a)]).
  { rewrite Htr2, Hg1, live_app, map_app, concat_app, !calls_to_app, Htr1.
    rewrite (calls_to_concat_nil st1 u a (live d) Hreach). simpl.
    rewrite Hk. unfold calls_to; simpl. rewrite Nat.eqb_refl. reflexivity. }
  assert (Hm2 : map_get (subs st2) m = Some a1) by (destruct Hc2 as (-> & _); exact Hm1).
  assert (Hnone : after_call st1 a1 (Some (TrampRef k)) = None)
    by (unfold after_call; rewrite (self_removes_once st1 a1 k m u Hk Hm1); reflexivity).
  assert (Hcall : forall beh' args st', tramps st' = tramps st1 ->
            call beh' (TrampRef k) args st'
            = (off m (TrampRef k) ;; call_user beh' u args) st').
  { intros beh' args st' Ht'. unfold call. rewrite Ht', Hk. reflexivity. }
  destruct (Nat.eq_dec (set_size (get_set st2 a1)) 0) as [H0|H0].
  - exists st1, st2, st2, false. split; [exact Honce|]. split; [exact Hs1|].
    split; [|split; [exact T1|exact Hcall]].
    apply send_empty. unfold msg_set. rewrite Hm2. exact H0.
  - assert (Hnd2 : NoDup (live (get_set st2 a1)))
      by (rewrite Hg2; apply NoDup_live_after; exact Hnd1).
    assert (Hf2 : length (get_set st2 a1) < fuel) by (rewrite Hg2, length_map; exact Hf1).
    assert (Ha2 : a1 < length (sets st2)) by lia.
    destruct (send_passive beh Hpas st2 m b fuel a1 Hm2 Ha2 Hnd2 ltac:(lia) Hf2)
      as (st3 & Hs2 & Hc3 & Htr3 & _ & _).
    exists st1, st2, st3, true. split; [exact Honce|]. split; [exact Hs1|].
    split; [exact Hs2|]. split; [|exact Hcall].
    rewrite Htr3, calls_to_app, T1, calls_to_concat_nil, app_nil_r; [reflexivity|].
    intros r Hr. rewrite Hg2, Hg1, map_app, live_app in Hr.
    change (map (after_call st1 a1) [Some (TrampRef k)])
      with [after_call st1 a1 (Some (TrampRef k))] in Hr.
    rewrite Hnone in Hr. simpl in Hr. rewrite app_nil_r in Hr.
    apply live_after_in in Hr.
    rewrite (reaches_ctx st1 st2); auto.
Qed.

(** The channel after [two_listeners]. *)
Definition st_two : state :=
  mkState [(0, 0)] [[Some (UserRef 1); Some (UserRef 2)]] [] [] [].

Lemma two_listeners_eval : two_listeners empty_state = Ok (UserRef 2) st_two.
Proof. reflexivity. Qed.

(** The channel after [two_listeners_rev]. *)
Definition st_two_rev : state :=
  mkState [(0, 0)] [[Some (UserRef 2); Some (UserRef 1)]] [] [] [].

Lemma two_listeners_rev_eval : two_listeners_rev empty_state = Ok (UserRef 1) st_two_rev.
Proof. reflexivity. Qed.

(** ** Set semantics of [on] *)

Lemma set_add_idem d r : set_add (set_add d r) r = set_add d r.
Proof.
  unfold set_add at 2. destruct (set_has d r) eqn:E.
  - unfold set_add. rewrite E. reflexivity.
  - unfold set_add. rewrite E. unfold set_has. rewrite existsb_app. simpl.
    replace (fref_eqb r r) with true by (symmetry; apply fref_eqb_spec; reflexivity).
    rewrite orb_true_r. reflexivity.
Qed.

Lemma with_sets_twice st l1 l2 : with_sets (with_sets st l1) l2 = with_sets st l2.
Proof. reflexivity. Qed.

(** A second [on] with the same reference changes nothing. *)
Lemma on_twice st m r :
  exists st1, on m r st = Ok r st1 /\ on m r st1 = Ok r st1.
Proof.
  unfold on. destruct (map_get (subs st) m) as [a|] eqn:Hm.
  - eexists; split; [reflexivity|]. simpl. rewrite Hm. f_equal.
    unfold put_set, get_set; simpl. rewrite with_sets_twice.
    destruct (Nat.lt_ge_cases a (length (sets st))) as [Ha|Ha].
    + rewrite nth_upd_same, set_add_idem, upd_upd by exact Ha. reflexivity.
    + rewrite !upd_oob; auto; rewrite ?length_upd; auto.
  - eexists; split; [reflexivity|]. simpl. rewrite map_get_set_same. f_equal.
    unfold put_set, get_set; simpl. rewrite nth_app_end.
    unfold set_add, set_has. simpl.
    replace (fref_eqb r r) with true by (symmetry; apply fref_eqb_spec; reflexivity).
    simpl. rewrite upd_last. reflexivity.
Qed.

Lemma calls_to_single st u args l :
  NoDup l -> In (UserRef u) l ->
  (forall r, In r l -> r <> UserRef u -> reaches st r u = false) ->
  calls_to u (concat (map (fun r => calls_of st r args) l)) = [(u, args)].
Proof.
  induction l as [|x l IH]; simpl; intros Hnd Hin Hr; [contradiction|].
  inversion Hnd as [|? ? Hn Hnd']; subst.
  rewrite calls_to_app. destruct (fref_eqb x (UserRef u)) eqn:E.
  - apply fref_eqb_spec in E; subst. rewrite calls_to_concat_nil.
    + unfold calls_to; simpl. rewrite Nat.eqb_refl. reflexivity.
    + intros r Hr'. apply Hr; auto. intros ->. contradiction.
  - assert (Hx : x <> UserRef u) by (intros ->; rewrite (proj2 (fref_eqb_spec _ _) eq_refl) in E; discriminate).
    rewrite calls_of_unreached by (apply Hr; auto).
    apply IH; auto. destruct Hin as [->|Hin]; [contradiction|exact Hin].
Qed.

(** C7: [Rx.on(m, L)] twice leaves the state of a single [on(m, L)],
    returns [L] both times, and a following [send(m, args)] calls [L]
    exactly once (the other listeners of [m] being plain listeners that
    do not reach [L]). *)
Theorem on_idempotent beh fuel m u args st :
  (exists st1, on m (UserRef u) st = Ok (UserRef u) st1
               /\ on m (UserRef u) st1 = Ok (UserRef u) st1)
  /\ (passive beh -> wf_msg st m = true ->
      (forall r, In r (live (msg_set st m)) -> r <> UserRef u -> reaches st r u = false) ->
      length (msg_set st m) + 1 < fuel ->
      exists st1 st2, on m (UserRef u) st = Ok (UserRef u) st1
        /\ on m (UserRef u) st1 = Ok (UserRef u) st1
        /\ send beh fuel m args st1 = Ok true st2
        /\ calls_to u (trace st2) = calls_to u (trace st) ++ [(u, args)]).
Proof.
  split; [apply on_twice|].
  intros Hpas Hwfb Hu Hf.
  assert (Hwf : forall a0, map_get (subs st) m = Some a0 -> wf_at st a0)
    by (intros; eapply wf_msg_spec; eauto).
  destruct (msg_set_wf st m Hwf) as [Hnd Hbd].
  destruct (on_shape st m (UserRef u) Hwf)
    as (a1 & st1 & Hon & Hm1 & Hg1 & Ha1 & _ & Ht1 & Hd1 & Htr1).
  destruct (on_twice st m (UserRef u)) as (st1' & Hon' & Hon2).
  rewrite Hon in Hon'. injection Hon' as <-.
  set (d := msg_set st m) in *.
  assert (Hlive : NoDup (live (set_add d (UserRef u))) /\ In (UserRef u) (live (set_add d (UserRef u)))
                  /\ (forall r, In r (live (set_add d (UserRef u))) -> In r (live d) \/ r = UserRef u)
                  /\ length (set_add d (UserRef u)) <= length d + 1).
  { destruct (in_dec fref_eq_dec (UserRef u) (live d)) as [Hin|Hin].
    - rewrite set_add_in by exact Hin. split; [exact Hnd|]. split; [exact Hin|].
      split; [intros r Hr; left; exact Hr|lia].
    - rewrite set_add_notin by exact Hin. rewrite live_app, length_app. simpl.
      repeat split.
      + apply NoDup_snoc; auto.
      + apply in_or_app; right; left; reflexivity.
      + intros r Hr. apply in_app_or in Hr as [Hr|[Hr|[]]]; auto.
      + lia. }
  destruct Hlive as (Hnd1 & Hin1 & Hsub & Hlen).
  rewrite <- Hg1 in Hnd1, Hin1, Hsub, Hlen.
  destruct (send_passive beh Hpas st1 m args fuel a1 Hm1 Ha1 Hnd1
              (set_size_pos _ _ Hin1) ltac:(lia))
    as (st2 & Hs & _ & Htr2 & _ & _).
  exists st1, st2. split; [exact Hon|]. split; [exact Hon2|]. split; [exact Hs|].
  rewrite Htr2, calls_to_app, Htr1, (calls_to_single st1 u args); auto.
  intros r Hr Hne. destruct (Hsub r Hr) as [Hd|]; [|contradiction].
  rewrite (reaches_tramps st st1); auto.
Qed.

Lemma on_idempotent_witness :
  wf_msg st_two 0 = true
  /\ exists st1 st2, on 0 (UserRef 1) st_two = Ok (UserRef 1) st1
       /\ on 0 (UserRef 1) st1 = Ok (UserRef 1) st1
       /\ send quiet_beh 5 0 [7] st1 = Ok true st2
       /\ calls_to 1 (trace st2) = calls_to 1 (trace st_two) ++ [(1, [7])].
Proof.
  split; [reflexivity|].
  apply (proj2 (on_idempotent quiet_beh 5 0 1 [7] st_two) quiet_passive eq_refl).
  - intros r Hr Hne. simpl in Hr. destruct Hr as [<-|[<-|[]]]; [contradiction|reflexivity].
  - vm_compute; lia.
Defined.

Lemma once_fires_once_witness :
  wf_msg st_two 0 = true
  /\ exists st1 st2 st3 b2,
    once 0 3 st_two = Ok (TrampRef (length (tramps st_two))) st1
    /\ send quiet_beh 5 0 [7] st1 = Ok true st2
    /\ send quiet_beh 5 0 [8] st2 = Ok b2 st3
    /\ calls_to 3 (trace st3) = calls_to 3 (trace st_two) ++ [(3, [7])]
    /\ (forall beh' args st', tramps st' = tramps st1 ->
          call beh' (TrampRef (length (tramps st_two))) args st'
          = (off 0 (TrampRef (length (tramps st_two))) ;; call_user beh' 3 args) st').
Proof.
  split; [reflexivity|].
  apply (once_fires_once quiet_beh 5 0 3 [7] [8] st_two quiet_passive eq_refl).
  - intros r Hr. simpl in Hr. destruct Hr as [<-|[<-|[]]]; reflexivity.
  - vm_compute; lia.
Defined.

(** ** C10: [once] registrations are not deduplicated *)

(** C10: two [Rx.once(m, L)] with the same [L] register two distinct
    trampolines, and one [send(m, args)] calls [L] twice (the other
    listeners of [m] being plain listeners that do not reach [L]). *)
Theorem once_twice_fires_twice beh fuel m u args st :
  passive beh -> wf_msg st m = true ->
  (forall r, In r (live (msg_set st m)) -> reaches st r u = false) ->
  length (msg_set st m) + 2 < fuel ->
  exists f1 f2 st1 st2 st3,
    once m u st = Ok f1 st1 /\ once m u st1 = Ok f2 st2 /\ f1 <> f2
    /\ send beh fuel m args st2 = Ok true st3
    /\ calls_to u (trace st3) = calls_to u (trace st) ++ [(u, args); (u, args)].
Proof.
  intros Hpas Hwfb Hu Hf.
  assert (Hwf : forall a0, map_get (subs st) m = Some a0 -> wf_at st a0)
    by (intros; eapply wf_msg_spec; eauto).
  destruct (msg_set_wf st m Hwf) as [Hnd Hbd].
  destruct (once_shape st m u Hwf) as (a1 & st1 & Honce1 & Hm1 & Hg1 & Hwf1 & Ht1 & Hd1 & Htr1).
  assert (Hwf1' : forall a0, map_get (subs st1) m = Some a0 -> wf_at st1 a0)
    by (intros a0 Ha0; rewrite Hm1 in Ha0; injection Ha0 as <-; exact Hwf1).
  destruct (once_shape st1 m u Hwf1') as (a2 & st2 & Honce2 & Hm2 & Hg2 & Hwf2 & Ht2 & Hd2 & Htr2).
  set (k := length (tramps st)) in *.
  assert (Hk1 : length (tramps st1) = S k) by (rewrite Ht1, length_app; simpl; lia).
  rewrite Hk1 in Honce2, Hg2.
  unfold msg_set in Hg2. rewrite Hm1, Hg1 in Hg2.
  set (d := msg_set st m) in *.
  assert (Ht2' : tramps st2 = tramps st ++ [TOnce m u; TOnce m u])
    by (rewrite Ht2, Ht1, <- app_assoc; reflexivity).
  destruct Hwf2 as (Ha2 & Hnd2 & _).
  assert (Hin : In (TrampRef k) (live (get_set st2 a2)))
    by (rewrite Hg2, !live_app; apply in_or_app; left; apply in_or_app; right; left; reflexivity).
  destruct (send_passive beh Hpas st2 m args fuel a2 Hm2 Ha2 Hnd2 (set_size_pos _ _ Hin)
              ltac:(rewrite Hg2, !length_app; simpl; lia))
    as (st3 & Hs & _ & Htr3 & _ & _).
  exists (TrampRef k), (TrampRef (S k)), st1, st2, st3.
  split; [exact Honce1|]. split; [exact Honce2|]. split; [intro E; injection E; lia|].
  split; [exact Hs|].
  rewrite Htr3, Hg2, !live_app, !map_app, !concat_app, !calls_to_app, Htr2, Htr1.
  rewrite calls_to_concat_nil.
  - assert (Hk1' : nth_error (tramps st2) k = Some (TOnce m u))
      by (rewrite Ht2'; apply (nth_error_mid (tramps st) [TOnce m u] (TOnce m u))).
    assert (Hk2' : nth_error (tramps st2) (S k) = Some (TOnce m u)).
    { rewrite Ht2'.
      change [TOnce m u; TOnce m u] with ([TOnce m u] ++ [TOnce m u]).
      rewrite (app_assoc (tramps st) [TOnce m u] [TOnce m u]).
      replace (S k) with (length (tramps st ++ [TOnce m u]))
        by (rewrite length_app; simpl; lia).
      apply (nth_error_mid _ [] (TOnce m u)). }
    cbn [live map concat].
    rewrite (calls_of_once st2 k m u args Hk1'), (calls_of_once st2 (S k) m u args Hk2').
    unfold calls_to; simpl. rewrite Nat.eqb_refl. reflexivity.
  - intros r Hr. rewrite (reaches_ext st st2 [TOnce m u; TOnce m u]); auto.
    intros k' ->. apply Hbd; exact Hr.
Qed.

Lemma once_twice_fires_twice_witness :
  wf_msg st_two 0 = true
  /\ exists f1 f2 st1 st2 st3,
    once 0 3 st_two = Ok f1 st1 /\ once 0 3 st1 = Ok f2 st2 /\ f1 <> f2
    /\ send quiet_beh 6 0 [7] st2 = Ok true st3
    /\ calls_to 3 (trace st3) = calls_to 3 (trace st_two) ++ [(3, [7]); (3, [7])].
Proof.
  split; [reflexivity|].
  apply (once_twice_fires_twice quiet_beh 6 0 3 [7] st_two quiet_passive eq_refl).
  - intros r Hr. simpl in Hr. destruct Hr as [<-|[<-|[]]]; reflexivity.
  - vm_compute; lia.
Defined.

(** ** C4: what [Rx.once] returns *)

(** C4 (code): [Rx.once] returns [this.on(msg, f)], the fresh trampoline
    [f], not the caller's listener; [off] with that value does remove the
    trampoline, and a later [send] finds no listener. *)
Theorem once_returns_trampoline :
  (forall st m u, exists st1, once m u st = Ok (TrampRef (length (tramps st))) st1)
  /\ exists st1 st2 st3,
       once 0 1 empty_state = Ok (TrampRef 0) st1
       /\ off 0 (TrampRef 0) st1 = Ok true st2
       /\ send quiet_beh 5 0 [7] st2 = Ok false st3 /\ trace st3 = [].
Proof.
  split.
  - intros st m u. unfold once, bind, alloc_tramp, on. simpl.
    destruct (map_get (subs st) m); eexists; reflexivity.
  - do 3 eexists. split; [reflexivity|]. split; [reflexivity|]. split; reflexivity.
Qed.

(** ** C6: what [Rx.onweak] returns *)

(** C6 (code): [Rx.onweak] of [src/src/index.ts] returns the listener
    itself (a strong reference), while the variant in
    [src/unnamed/part_001] returns the [WeakRef]; both register the same
    trampoline. *)
Theorem onweak_returns_listener :
  forall st m u, exists st1, onweak m u st = Ok (VFn (UserRef u)) st1
    /\ onweak_ref m u st = Ok (VWeakRef u) st1.
Proof.
  intros st m u. unfold onweak, onweak_ref, bind, alloc_tramp, on, ret. simpl.
  destruct (map_get (subs st) m); eexists; split; reflexivity.
Qed.

(** ** C8: listener exceptions *)

(** A world whose channel holds listeners 1 and 2 under message 0. *)
Definition w_two : world := mkWorld st_two [] [] 0.

(** C8 (amended): [Tx.send] does not catch a listener's exception: the
    [for..of] loop stops and the exception reaches the caller of [send],
    the earlier listeners having run.  [Tx.send_async] returns a pending
    promise and queues a timer; when that timer's [send] throws, the
    exception leaves the timer callback before [resolve] runs (the host
    reports it as uncaught), the task is gone and the promise is left
    pending; when [send] returns [b], the promise resolves to [b]. *)
Theorem send_async_settlement :
  (forall m args w,
     nth_error (promises (snd (send_async m args w))) (fst (send_async m args w)) = Some Pending
     /\ timers (snd (send_async m args w)) = timers w ++ [(m, args, fst (send_async m args w))])
  /\ (forall beh fuel w m args p rest st,
        timers w = (m, args, p) :: rest -> send beh fuel m args (reg w) = Exn st ->
        run_timer beh fuel w = Some (mkWorld st (promises w) rest (S (uncaught w))))
  /\ (forall beh fuel w m args p rest b st,
        timers w = (m, args, p) :: rest -> send beh fuel m args (reg w) = Ok b st ->
        run_timer beh fuel w = Some (mkWorld st (upd (promises w) p (Resolved b)) rest (uncaught w)))
  /\ (forall beh f a i args st r st',
        nth_error (get_set st a) i = Some (Some r) -> call beh r args st = Exn st' ->
        iter beh (S f) a i args st = Exn st').
Proof.
  split; [|split; [|split]].
  - intros m args w. simpl. split; [apply (nth_error_mid _ [] Pending)|reflexivity].
  - intros beh fuel w m args p rest st Ht Hs. unfold run_timer. rewrite Ht, Hs. reflexivity.
  - intros beh fuel w m args p rest b st Ht Hs. unfold run_timer. rewrite Ht, Hs. reflexivity.
  - intros beh f a i args st r st' Hn Hc. simpl. rewrite Hn. unfold bind. rewrite Hc. reflexivity.
Qed.

Lemma send_async_settlement_witness :
  timers (snd (send_async 0 [7] w_two)) = (0, [7], 0) :: []
  /\ send throw_beh 5 0 [7] (reg (snd (send_async 0 [7] w_two)))
     = Exn (with_trace st_two [(1, [7])])
  /\ run_timer throw_beh 5 (snd (send_async 0 [7] w_two))
     = Some (mkWorld (with_trace st_two [(1, [7])])
                     (promises (snd (send_async 0 [7] w_two))) []
                     (S (uncaught (snd (send_async 0 [7] w_two)))))
  /\ iter throw_beh 5 0 0 [7] st_two = Exn (with_trace st_two [(1, [7])]).
Proof.
  split; [reflexivity|]. split; [reflexivity|]. split.
  - apply (proj1 (proj2 send_async_settlement) throw_beh 5 _ 0 [7] 0 []); reflexivity.
  - apply (proj2 (proj2 (proj2 send_async_settlement)) throw_beh 4 0 0 [7] st_two (UserRef 1));
      reflexivity.
Defined.

(** C8 fails: listener 1 throws inside the timer of [send_async]; the
    promise is neither resolved nor rejected, and no task is left that
    could settle it. *)
Lemma send_async_throw_leaves_pending :
  exists w2, run_timer throw_beh 5 (snd (send_async 0 [7] w_two)) = Some w2
    /\ nth_error (promises w2) (fst (send_async 0 [7] w_two)) = Some Pending
    /\ timers w2 = [] /\ uncaught w2 = 1.
Proof. eexists. split; [reflexivity|]. split; [reflexivity|]. split; reflexivity. Qed.

(** ** C9: the association table *)

(** C9 (amended): [Channel.get(h)] for a host with no association throws
    (a TypeError: callers are expected to test [Channel.has] first) and
    returns the registry otherwise; [Channel.add(h)] is not guarded by
    [has]: it always associates a fresh Channel, replacing any previous
    association. *)
Theorem assoc_get_add :
  (forall h t, Assoc.has h t = false -> Assoc.get h t = Assoc.RThrow t)
  /\ (forall h t, Assoc.has h t = true -> exists c, Assoc.get h t = Assoc.RVal c t)
  /\ (forall h t, exists t', Assoc.add h t = Assoc.RVal tt t'
        /\ Assoc.has h t' = true /\ Assoc.get h t' = Assoc.RVal (Assoc.next t) t'
        /\ Assoc.next t' = S (Assoc.next t)).
Proof.
  split; [|split].
  - intros h t. unfold Assoc.has, Assoc.get.
    destruct (map_get (Assoc.channels t) h); [discriminate|reflexivity].
  - intros h t. unfold Assoc.has, Assoc.get.
    destruct (map_get (Assoc.channels t) h); [eexists; reflexivity|discriminate].
  - intros h t. eexists. split; [reflexivity|].
    unfold Assoc.has, Assoc.get; simpl. rewrite map_get_set_same.
    repeat split; reflexivity.
Qed.

Definition table0 : Assoc.table := Assoc.mkTable [] 0.

Lemma assoc_get_add_witness :
  Assoc.has 5 table0 = false /\ Assoc.get 5 table0 = Assoc.RThrow table0
  /\ Assoc.has 5 (Assoc.mkTable [(5, 0)] 1) = true
  /\ exists c, Assoc.get 5 (Assoc.mkTable [(5, 0)] 1) = Assoc.RVal c (Assoc.mkTable [(5, 0)] 1).
Proof.
  split; [reflexivity|]. split; [apply (proj1 assoc_get_add); reflexivity|].
  split; [reflexivity|]. apply (proj1 (proj2 assoc_get_add)); reflexivity.
Defined.

(** C9 fails: [get] on a host with no association throws, and a second
    [add] for the same host replaces the Channel of the first. *)
Lemma assoc_get_throws_add_replaces :
  Assoc.get 5 table0 = Assoc.RThrow table0
  /\ exists t1 t2, Assoc.add 5 table0 = Assoc.RVal tt t1
       /\ Assoc.get 5 t1 = Assoc.RVal 0 t1
       /\ Assoc.add 5 t1 = Assoc.RVal tt t2
       /\ Assoc.get 5 t2 = Assoc.RVal 1 t2.
Proof.
  split; [reflexivity|]. do 2 eexists.
  split; [reflexivity|]. split; [reflexivity|]. split; reflexivity.
Qed.

(** * Further properties of the registry *)

(** ** The registry invariant *)

(** A reference the program can hold: a user function, or a trampoline
    already allocated ([once] hands its trampoline back to the caller). *)
Definition fref_ok (n : nat) (r : fref) : Prop :=
  match r with TrampRef k => k < n | UserRef _ => True end.

Definition set_ok (n : nat) (d : list (option fref)) : Prop :=
  NoDup (live d) /\ (forall k, In (TrampRef k) (live d) -> k < n).

(** Distinct keys, one Set object per key, valid addresses, and no Set
    holding a reference twice. *)
Definition wf_reg (st : state) : Prop :=
  NoDup (map fst (subs st)) /\ NoDup (map snd (subs st))
  /\ (forall p, In p (subs st) -> snd p < length (sets st))
  /\ Forall (set_ok (length (tramps st))) (sets st).

Lemma map_get_In l m a : map_get l m = Some a -> In (m, a) l.
Proof.
  induction l as [|[k w] t IH]; simpl; [discriminate|].
  destruct (Nat.eqb_spec k m) as [->|]; [intros [= ->]; left; reflexivity|].
  intro H; right; auto.
Qed.

Lemma map_get_None l m : map_get l m = None -> ~ In m (map fst l).
Proof.
  induction l as [|[k w] t IH]; simpl; [tauto|].
  destruct (Nat.eqb_spec k m); [discriminate|]. intros H [E|Hin]; [contradiction|].
  apply IH; auto.
Qed.

Lemma map_get_Some_In l m : In m (map fst l) -> exists a, map_get l m = Some a.
Proof.
  induction l as [|[k w] t IH]; simpl; [tauto|].
  destruct (Nat.eqb_spec k m); [eexists; reflexivity|]. intros [E|Hin]; [contradiction|auto].
Qed.

Lemma map_set_absent l m v : map_get l m = None -> map_set l m v = l ++ [(m, v)].
Proof.
  induction l as [|[k w] t IH]; simpl; auto.
  destruct (Nat.eqb k m); [discriminate|]. intro H; rewrite IH; auto.
Qed.

Lemma Forall_upd {A} (P : A -> Prop) l n x : Forall P l -> P x -> Forall P (upd l n x).
Proof.
  revert n; induction l as [|y l IH]; intros [|n] Hl Hx; simpl; auto;
    inversion Hl; subst; constructor; auto.
Qed.

Lemma Forall_nth' {A} (P : A -> Prop) l n d : Forall P l -> n < length l -> P (nth n l d).
Proof. intros H Hn. rewrite Forall_forall in H. apply H, nth_In, Hn. Qed.

Lemma set_ok_mono n n' d : n <= n' -> set_ok n d -> set_ok n' d.
Proof. intros Hn [H1 H2]. split; auto. intros k Hk; specialize (H2 k Hk); lia. Qed.

Lemma set_ok_add n d r : set_ok n d -> fref_ok n r -> set_ok n (set_add d r).
Proof.
  intros [Hnd Hb] Hr. destruct (in_dec fref_eq_dec r (live d)) as [Hin|Hin].
  - rewrite set_add_in by exact Hin. split; auto.
  - rewrite set_add_notin by exact Hin. unfold set_ok. rewrite live_app. simpl. split.
    + apply NoDup_snoc; auto.
    + intros k Hk. apply in_app_or in Hk as [Hk|[Hk|[]]]; auto. subst r. exact Hr.
Qed.

Lemma live_delete_in d r x : In x (live (snd (set_delete d r))) -> In x (live d).
Proof.
  induction d as [|e d IH]; simpl; auto.
  destruct (is_entry r e).
  - simpl. destruct e; simpl; auto.
  - destruct (set_delete d r) as [b t'] eqn:E. simpl in *.
    destruct e; simpl; [intros [H|H]; auto|]; auto.
Qed.

Lemma set_ok_delete n d r : set_ok n d -> set_ok n (snd (set_delete d r)).
Proof.
  intros [Hnd Hb]. split.
  - clear Hb. induction d as [|e d IH]; simpl in *; auto.
    destruct (is_entry r e).
    + simpl. destruct e; simpl in *; auto. inversion Hnd; auto.
    + destruct (set_delete d r) as [b t'] eqn:E. simpl in *.
      destruct e; simpl in *; auto. inversion Hnd as [|? ? Hn Hnd']; subst.
      constructor; auto. intro Hin. apply Hn.
      apply (live_delete_in d r). rewrite E. exact Hin.
  - intros k Hk. apply Hb. eapply live_delete_in; eauto.
Qed.

Lemma wf_put_set st a d :
  wf_reg st -> set_ok (length (tramps st)) d -> wf_reg (put_set st a d).
Proof.
  intros (H1 & H2 & H3 & H4) Hd. unfold put_set, with_sets, wf_reg; simpl.
  rewrite length_upd. repeat split; auto. apply Forall_upd; auto.
Qed.

Lemma wf_get_set st a : wf_reg st -> set_ok (length (tramps st)) (get_set st a).
Proof.
  intros (_ & _ & _ & H4). unfold get_set.
  destruct (Nat.lt_ge_cases a (length (sets st))) as [Ha|Ha].
  - apply Forall_nth'; auto.
  - rewrite nth_overflow by exact Ha. split; [constructor|simpl; tauto].
Qed.

Lemma wf_on st m r st' r' :
  wf_reg st -> fref_ok (length (tramps st)) r -> on m r st = Ok r' st' ->
  wf_reg st' /\ tramps st' = tramps st.
Proof.
  intros Hwf Hr. unfold on. destruct (map_get (subs st) m) as [a|] eqn:Hm; intros [= <- <-].
  - split; [|reflexivity]. apply wf_put_set; auto. apply set_ok_add; auto. apply wf_get_set; auto.
  - split; [|reflexivity]. destruct Hwf as (H1 & H2 & H3 & H4).
    unfold wf_reg, with_subs, with_sets; simpl.
    rewrite map_set_absent by exact Hm. rewrite !map_app. simpl.
    repeat split.
    + apply NoDup_snoc; auto. apply map_get_None; auto.
    + apply NoDup_snoc; auto. intro Hin. apply in_map_iff in Hin as [p [Hp Hin]].
      specialize (H3 p Hin). lia.
    + intros p Hp. rewrite length_app; simpl.
      apply in_app_or in Hp as [Hp|[<-|[]]]; [specialize (H3 p Hp); lia|simpl; lia].
    + apply Forall_app; split; auto. constructor; [|constructor].
      split; simpl; [constructor; [tauto|constructor]|].
      intros k [Hk|[]]; subst r; exact Hr.
Qed.

Lemma wf_off st m r st' b :
  wf_reg st -> off m r st = Ok b st' -> wf_reg st' /\ tramps st' = tramps st.
Proof.
  intros Hwf. unfold off. destruct (map_get (subs st) m) as [a|] eqn:Hm.
  - destruct (set_delete (get_set st a) r) as [bb d'] eqn:E. intros [= <- <-].
    split; [|reflexivity]. apply wf_put_set; auto.
    replace d' with (snd (set_delete (get_set st a) r)) by (rewrite E; reflexivity).
    apply set_ok_delete, wf_get_set; auto.
  - intros [= <- <-]. auto.
Qed.

Lemma wf_clear st st' : wf_reg st -> clear st = Ok tt st' -> wf_reg st' /\ tramps st' = tramps st.
Proof.
  intros (H1 & H2 & H3 & H4) [= <-]. unfold wf_reg, with_subs; simpl.
  repeat split; auto; [constructor|constructor|tauto].
Qed.

Lemma wf_with_trace st t : wf_reg st -> wf_reg (with_trace st t).
Proof. exact (fun H => H). Qed.

Lemma wf_alloc st t st' r :
  wf_reg st -> alloc_tramp t st = Ok r st' ->
  wf_reg st' /\ r = TrampRef (length (tramps st)) /\ tramps st' = tramps st ++ [t].
Proof.
  intros (H1 & H2 & H3 & H4) [= <- <-]. split; [|split; reflexivity].
  unfold wf_reg, with_tramps; simpl. repeat split; auto.
  eapply Forall_impl; [|exact H4]. intros d. apply set_ok_mono. rewrite length_app; lia.
Qed.

Lemma wf_once st m u st' r : wf_reg st -> once m u st = Ok r st' -> wf_reg st'.
Proof.
  intros Hwf. unfold once, bind.
  destruct (alloc_tramp (TOnce m u) st) as [f st0| |] eqn:E; try discriminate.
  destruct (wf_alloc st _ st0 f Hwf E) as (Hwf0 & -> & Ht0).
  intro Hon. apply (wf_on st0 m (TrampRef (length (tramps st))) st' r Hwf0); auto.
  simpl. rewrite Ht0, length_app; simpl; lia.
Qed.

Lemma wf_onweak_gen st m u st' v (ret_v : value) :
  wf_reg st ->
  (f <- alloc_tramp (TWeak m u) ;; on m f ;; ret ret_v) st = Ok v st' -> wf_reg st'.
Proof.
  intros Hwf. unfold bind.
  destruct (alloc_tramp (TWeak m u) st) as [f st0| |] eqn:E; try discriminate.
  destruct (wf_alloc st _ st0 f Hwf E) as (Hwf0 & -> & Ht0).
  destruct (on m (TrampRef (length (tramps st))) st0) as [f' st1| |] eqn:Eon; try discriminate.
  intros [= _ <-]. apply (wf_on st0 m (TrampRef (length (tramps st))) st1 f' Hwf0); auto.
  simpl. rewrite Ht0, length_app; simpl; lia.
Qed.

Lemma map_delete_incl l m b l' : map_delete l m = (b, l') -> incl l' l.
Proof.
  revert b l'; induction l as [|[k w] t IH]; simpl; intros b l' E.
  - injection E as _ <-. intros x [].
  - destruct (Nat.eqb k m); [injection E as _ <-; intros x Hx; right; exact Hx|].
    destruct (map_delete t m) as [b0 t'] eqn:E0. injection E as _ <-.
    intros x [<-|Hx]; [left; reflexivity|right; eapply IH; eauto].
Qed.

Lemma map_delete_NoDup {B} (f : msg * nat -> B) l m b l' :
  NoDup (map f l) -> map_delete l m = (b, l') -> NoDup (map f l').
Proof.
  revert b l'; induction l as [|[k w] t IH]; simpl; intros b l' Hnd E.
  - injection E as _ <-. constructor.
  - inversion Hnd as [|? ? Hn Hnd']; subst.
    destruct (Nat.eqb k m); [injection E as _ <-; exact Hnd'|].
    destruct (map_delete t m) as [b0 t'] eqn:E0. injection E as _ <-. simpl.
    constructor; [|eapply IH; eauto]. intro Hin. apply Hn.
    apply in_map_iff in Hin as [p [Hp Hin]]. apply in_map_iff. exists p; split; auto.
    eapply map_delete_incl; eauto.
Qed.

Lemma wf_off_all st m st' b : wf_reg st -> off_all m st = Ok b st' -> wf_reg st'.
Proof.
  intros (H1 & H2 & H3 & H4). unfold off_all.
  destruct (map_delete (subs st) m) as [bb s'] eqn:E. intros [= <- <-].
  unfold wf_reg, with_subs; simpl. repeat split; auto.
  - eapply map_delete_NoDup; eauto.
  - eapply map_delete_NoDup; eauto.
  - intros p Hp. apply H3. eapply map_delete_incl; eauto.
Qed.

(** ** The invariant through [Tx.send] *)

(** The references the listener bodies subscribe are ones the program can
    hold. *)
Definition valid_beh (beh : nat -> list action) (n : nat) : Prop :=
  forall u m r, In (AOn m r) (beh u) -> fref_ok n r.

(** The invariant holds in the state a computation returns or throws
    from, and the trampolines are unchanged. *)
Definition inv_out {A} (T : list tramp) (o : outcome A) : Prop :=
  match o with
  | Ok _ st | Exn st => wf_reg st /\ tramps st = T
  | NoFuel => True
  end.

Lemma inv_bind {A B} T (c : M A) (k : A -> M B) st :
  inv_out T (c st) ->
  (forall a st', c st = Ok a st' -> wf_reg st' -> tramps st' = T -> inv_out T (k a st')) ->
  inv_out T (bind c k st).
Proof.
  unfold bind. destruct (c st) as [a st'| st'|]; simpl; auto.
  intros [H1 H2] Hk. apply Hk; auto.
Qed.

Lemma inv_off T st m r : wf_reg st -> tramps st = T -> inv_out T (off m r st).
Proof.
  intros Hwf Ht. destruct (off m r st) as [b st'| |] eqn:E; simpl.
  - destruct (wf_off st m r st' b Hwf E); split; congruence.
  - unfold off in E. destruct (map_get (subs st) m); [destruct set_delete|]; discriminate.
  - unfold off in E. destruct (map_get (subs st) m); [destruct set_delete|]; discriminate.
Qed.

Lemma on_ok st m r : exists st', on m r st = Ok r st'.
Proof. unfold on. destruct (map_get (subs st) m); eexists; reflexivity. Qed.

Lemma run_actions_inv T l : forall st,
  wf_reg st -> tramps st = T -> (forall m r, In (AOn m r) l -> fref_ok (length T) r) ->
  inv_out T (run_actions l st).
Proof.
  induction l as [|x l IH]; intros st Hwf Ht Hv; simpl.
  - split; auto.
  - destruct x as [m r|m r| |]; simpl.
    + apply inv_bind; [apply inv_off; auto|]. intros; apply IH; auto.
      intros m0 r0 Hin; apply (Hv m0 r0); right; exact Hin.
    + apply inv_bind.
      * destruct (on_ok st m r) as [st' E]. rewrite E.
        destruct (wf_on st m r st' r Hwf) as [H1 H2]; [rewrite Ht; apply (Hv m r); left; reflexivity|exact E|].
        split; congruence.
      * intros; apply IH; auto. intros m0 r0 Hin; apply (Hv m0 r0); right; exact Hin.
    + apply inv_bind.
      * simpl. destruct (wf_clear st _ Hwf eq_refl). split; congruence.
      * intros; apply IH; auto. intros m0 r0 Hin; apply (Hv m0 r0); right; exact Hin.
    + unfold throw. split; auto.
Qed.

Section SendInvariant.

Variable beh : nat -> list action.

Lemma call_inv T r args st :
  wf_reg st -> tramps st = T -> valid_beh beh (length T) -> inv_out T (call beh r args st).
Proof.
  intros Hwf Ht Hv.
  assert (Hcu : forall u st', wf_reg st' -> tramps st' = T -> inv_out T (call_user beh u args st')).
  { intros u st' Hw' Ht'. unfold call_user. apply run_actions_inv; auto.
    intros m r' Hin. eapply Hv; eauto. }
  destruct r as [u|k]; simpl; auto.
  destruct (nth_error (tramps st) k) as [[m u|m u]|].
  - apply inv_bind; [apply inv_off; auto|]. intros; apply Hcu; auto.
  - destruct (existsb (Nat.eqb u) (dead st)).
    + apply inv_bind; [apply inv_off; auto|]. intros; simpl; auto.
    + apply Hcu; auto.
  - simpl; auto.
Qed.

Lemma iter_inv T fuel : forall a i args st,
  wf_reg st -> tramps st = T -> valid_beh beh (length T) ->
  inv_out T (iter beh fuel a i args st).
Proof.
  induction fuel as [|f IH]; intros a i args st Hwf Ht Hv; simpl; auto.
  destruct (nth_error (get_set st a) i) as [[r|]|]; simpl; auto.
  apply inv_bind; [apply call_inv; auto|]. intros; apply IH; auto.
Qed.

(** [Tx.send] keeps the registry invariant, whatever the listeners do,
    both when it returns and when a listener throws. *)
Lemma send_inv fuel m args st :
  wf_reg st -> valid_beh beh (length (tramps st)) ->
  inv_out (tramps st) (send beh fuel m args st).
Proof.
  intros Hwf Hv. unfold send.
  destruct (map_get (subs st) m) as [a|]; [|simpl; auto].
  destruct (0 <? set_size (get_set st a)); [|simpl; auto].
  apply inv_bind; [apply iter_inv; auto|]. intros; simpl; auto.
Qed.

End SendInvariant.

(** ** Reachable states *)

(** The host collects user listener [u] (only a [WeakRef] still points to
    it): its [deref()] answers [undefined] from now on. *)
Definition collect (u : nat) (st : state) : state :=
  mkState (subs st) (sets st) (tramps st) (u :: dead st) (trace st).

(** States built from a fresh [Channel] by the program's operations: the
    Rx calls, [clear], [off_all] of the variant, [Tx.send] (returning or
    throwing), and the host collecting a listener.  The listener bodies a
    [send] runs are those of the model ([action]): [on] with references the
    program holds, [off], [clear] and [throw]; bodies calling [once],
    [onweak], [off_all] or a nested [send] are not covered. *)
Inductive reachable : state -> Prop :=
| reach_new : reachable empty_state
| reach_on st m r r' st' :
    reachable st -> fref_ok (length (tramps st)) r -> on m r st = Ok r' st' -> reachable st'
| reach_off st m r b st' : reachable st -> off m r st = Ok b st' -> reachable st'
| reach_once st m u r st' : reachable st -> once m u st = Ok r st' -> reachable st'
| reach_onweak st m u v st' : reachable st -> onweak m u st = Ok v st' -> reachable st'
| reach_off_all st m b st' : reachable st -> off_all m st = Ok b st' -> reachable st'
| reach_clear st st' : reachable st -> clear st = Ok tt st' -> reachable st'
| reach_send st beh fuel m args b st' :
    reachable st -> valid_beh beh (length (tramps st)) ->
    send beh fuel m args st = Ok b st' -> reachable st'
| reach_send_exn st beh fuel m args st' :
    reachable st -> valid_beh beh (length (tramps st)) ->
    send beh fuel m args st = Exn st' -> reachable st'
| reach_collect st u : reachable st -> reachable (collect u st).

Lemma NoDup_nodupb l : NoDup l -> nodupb l = true.
Proof.
  induction l as [|x t IH]; simpl; intro H; auto.
  inversion H as [|? ? Hn Hnd]; subst. rewrite IH by exact Hnd. rewrite andb_true_r.
  apply negb_true_iff. destruct (existsb (fref_eqb x) t) eqn:E; auto.
  apply existsb_exists in E as [y [Hy Hxy]]. apply fref_eqb_spec in Hxy; subst. contradiction.
Qed.

Lemma wf_reg_msg st m : wf_reg st -> wf_msg st m = true.
Proof.
  intros Hwf. unfold wf_msg. destruct (map_get (subs st) m) as [a|] eqn:Hm; auto.
  destruct (wf_get_set st a Hwf) as [Hnd Hb].
  destruct Hwf as (_ & _ & H3 & _).
  pose proof (H3 _ (map_get_In _ _ _ Hm)) as Ha; simpl in Ha.
  rewrite (proj2 (Nat.ltb_lt _ _) Ha), NoDup_nodupb by exact Hnd.
  simpl. apply forallb_forall. intros [u|k] Hk; auto. apply Nat.ltb_lt, Hb, Hk.
Qed.

(** Every reachable state keeps the registry invariant, hence meets the
    [wf_msg] hypothesis of the delivery theorems for every message. *)
Theorem reachable_wf st : reachable st -> wf_reg st /\ forall m, wf_msg st m = true.
Proof.
  intro H. assert (Hwf : wf_reg st).
  { induction H.
    - repeat split; simpl; try constructor; tauto.
    - eapply wf_on; eauto.
    - eapply wf_off; eauto.
    - eapply wf_once; eauto.
    - eapply wf_onweak_gen; eauto.
    - eapply wf_off_all; eauto.
    - eapply wf_clear; eauto.
    - pose proof (send_inv beh fuel m args st IHreachable H0) as Hi. rewrite H1 in Hi. apply Hi.
    - pose proof (send_inv beh fuel m args st IHreachable H0) as Hi. rewrite H1 in Hi. apply Hi.
    - exact IHreachable. }
  split; [exact Hwf|]. intro m; apply wf_reg_msg, Hwf.
Qed.

Lemma reachable_wf_witness :
  reachable st_two /\ wf_reg st_two /\ (forall m, wf_msg st_two m = true).
Proof.
  assert (R : reachable st_two).
  { apply (reach_on (mkState [(0, 0)] [[Some (UserRef 1)]] [] [] []) 0 (UserRef 2) (UserRef 2));
      [|exact I|reflexivity].
    apply (reach_on empty_state 0 (UserRef 1) (UserRef 1)); [exact reach_new|exact I|reflexivity]. }
  split; [exact R|]. apply (reachable_wf st_two R).
Defined.

(** ** [Rx.off], [Rx.on], [Rx.off_all], [Channel.clear] on a well-formed registry *)

Lemma wf_st_two : wf_reg st_two.
Proof.
  unfold wf_reg, st_two; simpl. split; [repeat constructor; simpl; tauto|].
  split; [repeat constructor; simpl; tauto|]. split; [intros p [<-|[]]; simpl; lia|].
  constructor; [|constructor]. split.
  - constructor; [simpl; intros [H|[]]; discriminate|]. constructor; [simpl; tauto|constructor].
  - intros k [H|[H|[]]]; discriminate.
Qed.

Lemma map_get_inj l m m' a :
  NoDup (map snd l) -> map_get l m = Some a -> map_get l m' = Some a -> m = m'.
Proof.
  intros Hnd H1 H2. apply map_get_In in H1, H2. revert Hnd H1 H2.
  induction l as [|[k w] t IH]; simpl; [tauto|]. intros Hnd H1 H2.
  inversion Hnd as [|? ? Hn Hnd']; subst.
  destruct H1 as [E1|H1], H2 as [E2|H2].
  - congruence.
  - exfalso. apply Hn. assert (w = a) by congruence; subst w.
    apply (in_map snd) in H2. exact H2.
  - exfalso. apply Hn. assert (w = a) by congruence; subst w.
    apply (in_map snd) in H1. exact H1.
  - apply IH; auto.
Qed.

Lemma set_delete_spec d r : NoDup (live d) ->
  fst (set_delete d r) = existsb (fref_eqb r) (live d)
  /\ live (snd (set_delete d r)) = remove fref_eq_dec r (live d).
Proof.
  induction d as [|[r'|] t IH]; simpl; intro Hnd; auto.
  - inversion Hnd as [|? ? Hn Hnd']; subst. unfold is_entry.
    destruct (fref_eqb r r') eqn:E.
    + apply fref_eqb_spec in E; subst. simpl. destruct (fref_eq_dec r' r'); [|congruence].
      split; [reflexivity|]. symmetry; apply notin_remove; exact Hn.
    + destruct (set_delete t r) as [b t'] eqn:Ed. simpl.
      destruct (IH Hnd') as [IH1 IH2]. simpl in IH1, IH2. split; [exact IH1|].
      destruct (fref_eq_dec r r') as [->|]; [rewrite (proj2 (fref_eqb_spec r' r') eq_refl) in E; discriminate|].
      f_equal; exact IH2.
  - destruct (set_delete t r) as [b t'] eqn:Ed. simpl. exact (IH Hnd).
Qed.

Lemma set_delete_length d r : length (snd (set_delete d r)) = length d.
Proof.
  induction d as [|e t IH]; simpl; auto.
  destruct (is_entry r e); simpl; auto.
  destruct (set_delete t r) as [b t'] eqn:Ed. simpl in *. f_equal; exact IH.
Qed.

Lemma msg_set_put_other st a d m' :
  wf_reg st -> (forall a', map_get (subs st) m' = Some a' -> a' <> a) ->
  msg_set (put_set st a d) m' = msg_set st m'.
Proof.
  intros _ H. unfold msg_set, put_set, with_sets, get_set; simpl.
  destruct (map_get (subs st) m') as [a'|] eqn:E; auto.
  apply nth_upd_other. intro; subst. apply (H a' eq_refl); reflexivity.
Qed.

(** [Rx.off] on a well-formed registry. *)
Lemma off_spec st m r :
  wf_reg st ->
  exists st', off m r st = Ok (existsb (fref_eqb r) (live (msg_set st m))) st'
    /\ live (msg_set st' m) = remove fref_eq_dec r (live (msg_set st m))
    /\ (forall m', m' <> m -> msg_set st' m' = msg_set st m')
    /\ messages st' = messages st /\ tramps st' = tramps st /\ trace st' = trace st
    /\ length (msg_set st' m) = length (msg_set st m)
    /\ (map_get (subs st) m = None -> st' = st).
Proof.
  intros Hwf. unfold off, msg_set.
  destruct (map_get (subs st) m) as [a|] eqn:Hm.
  - destruct (wf_get_set st a Hwf) as [Hnd _].
    pose proof Hwf as (_ & Hsnd & H3 & _).
    pose proof (H3 _ (map_get_In _ _ _ Hm)) as Ha; simpl in Ha.
    destruct (set_delete_spec (get_set st a) r Hnd) as [S1 S2].
    destruct (set_delete (get_set st a) r) as [b d'] eqn:Ed. simpl in S1, S2. subst b.
    eexists; split; [reflexivity|].
    pose proof (set_delete_length (get_set st a) r) as SL. rewrite Ed in SL; simpl in SL.
    split; [|split; [|split; [reflexivity|split; [reflexivity|split; [reflexivity|split; [|discriminate]]]]]].
    + unfold put_set, with_sets, get_set; simpl. rewrite Hm, nth_upd_same by exact Ha. exact S2.
    + intros m' Hne. apply (msg_set_put_other st a d' m' Hwf).
      intros a' Hm' ->. apply Hne. exact (map_get_inj _ _ _ _ Hsnd Hm' Hm).
    + unfold put_set, with_sets, get_set; simpl. rewrite Hm, nth_upd_same by exact Ha. exact SL.
  - eexists; split; [reflexivity|]. rewrite Hm. repeat split; auto.
Qed.

(** [Rx.off(m, r)] answers whether [r] was a live value of the Set under
    [m] and deletes exactly that value: the Set's other values keep their
    order, the Sets of other messages and the list of messages are
    untouched, and for a message without a Set nothing changes at all. *)
Theorem off_removes_listener st m r :
  wf_reg st ->
  exists st', off m r st = Ok (existsb (fref_eqb r) (live (msg_set st m))) st'
    /\ live (msg_set st' m) = remove fref_eq_dec r (live (msg_set st m))
    /\ (forall m', m' <> m -> msg_set st' m' = msg_set st m')
    /\ messages st' = messages st /\ tramps st' = tramps st /\ trace st' = trace st
    /\ length (msg_set st' m) = length (msg_set st m)
    /\ (map_get (subs st) m = None -> st' = st).
Proof. exact (off_spec st m r). Qed.

Lemma off_removes_listener_witness :
  wf_reg st_two /\
  exists st', off 0 (UserRef 1) st_two = Ok (existsb (fref_eqb (UserRef 1)) (live (msg_set st_two 0))) st'
    /\ live (msg_set st' 0) = remove fref_eq_dec (UserRef 1) (live (msg_set st_two 0))
    /\ (forall m', m' <> 0 -> msg_set st' m' = msg_set st_two m')
    /\ messages st' = messages st_two /\ tramps st' = tramps st_two /\ trace st' = trace st_two
    /\ length (msg_set st' 0) = length (msg_set st_two 0)
    /\ (map_get (subs st_two) 0 = None -> st' = st_two).
Proof. split; [exact wf_st_two|]. apply (off_removes_listener st_two 0 (UserRef 1) wf_st_two). Defined.

Lemma set_has_live d r : set_has d r = existsb (fref_eqb r) (live d).
Proof. unfold set_has. induction d as [|[r'|] t IH]; simpl; auto. rewrite IH; reflexivity. Qed.

Lemma map_get_set_other l m m' v : m' <> m -> map_get (map_set l m v) m' = map_get l m'.
Proof.
  intro Hne. induction l as [|[k w] t IH]; simpl.
  - destruct (Nat.eqb_spec m m'); [congruence|reflexivity].
  - destruct (Nat.eqb_spec k m) as [->|]; simpl.
    + destruct (Nat.eqb_spec m m'); [congruence|reflexivity].
    + destruct (Nat.eqb k m'); auto.
Qed.

Lemma map_get_notin l m : ~ In m (map fst l) -> map_get l m = None.
Proof.
  induction l as [|[k w] t IH]; simpl; auto. intro Hn.
  destruct (Nat.eqb_spec k m); [exfalso; apply Hn; left; assumption|].
  apply IH. intro; apply Hn; right; assumption.
Qed.

Lemma existsb_eqb_In m l : existsb (Nat.eqb m) l = true <-> In m l.
Proof.
  rewrite existsb_exists. split.
  - intros [x [Hx E]]. apply Nat.eqb_eq in E; subst; exact Hx.
  - intro H; exists m; split; [exact H|apply Nat.eqb_refl].
Qed.

(** [Rx.on] on a well-formed registry. *)
Lemma on_spec st m r :
  wf_reg st ->
  exists st', on m r st = Ok r st'
    /\ live (msg_set st' m)
       = live (msg_set st m) ++ (if existsb (fref_eqb r) (live (msg_set st m)) then [] else [r])
    /\ (forall m', m' <> m -> msg_set st' m' = msg_set st m')
    /\ messages st' = (if existsb (Nat.eqb m) (messages st) then messages st
                       else messages st ++ [m])
    /\ tramps st' = tramps st /\ trace st' = trace st.
Proof.
  intros Hwf. pose proof Hwf as (_ & Hsnd & H3 & _). unfold on, msg_set, messages.
  destruct (map_get (subs st) m) as [a|] eqn:Hm.
  - pose proof (H3 _ (map_get_In _ _ _ Hm)) as Ha; simpl in Ha.
    eexists; split; [reflexivity|].
    unfold put_set, with_sets, get_set; simpl. rewrite Hm, nth_upd_same by exact Ha.
    split; [|split; [|split; [|split; reflexivity]]].
    + unfold set_add. rewrite set_has_live. destruct (existsb (fref_eqb r) _);
        [rewrite app_nil_r; reflexivity|rewrite live_app; reflexivity].
    + intros m' Hne. destruct (map_get (subs st) m') as [a'|] eqn:Hm'; auto.
      apply nth_upd_other. intros ->. apply Hne. exact (map_get_inj _ _ _ _ Hsnd Hm' Hm).
    + replace (existsb (Nat.eqb m) (map fst (subs st))) with true; [reflexivity|].
      symmetry; apply existsb_eqb_In. exact (in_map fst _ _ (map_get_In _ _ _ Hm)).
  - eexists; split; [reflexivity|]. unfold get_set; simpl.
    rewrite map_get_set_same, nth_app_end.
    split; [|split; [|split; [|split; reflexivity]]].
    + reflexivity.
    + intros m' Hne. rewrite map_get_set_other by exact Hne.
      destruct (map_get (subs st) m') as [a'|] eqn:Hm'; auto.
      pose proof (H3 _ (map_get_In _ _ _ Hm')) as Ha'; simpl in Ha'.
      apply app_nth1; exact Ha'.
    + rewrite map_set_absent by exact Hm. rewrite map_app; simpl.
      replace (existsb (Nat.eqb m) (map fst (subs st))) with false; [reflexivity|].
      symmetry. destruct (existsb (Nat.eqb m) (map fst (subs st))) eqn:E; auto.
      apply existsb_eqb_In in E. exfalso; exact (map_get_None _ _ Hm E).
Qed.

(** [Rx.on(m, r)] appends [r] to the iteration order of the Set under [m]
    unless it is already there, in which case the order is unchanged; a
    message that had no Set is appended to the list of messages (Map
    insertion order); the Sets of other messages are untouched. *)
Theorem on_appends_listener st m r :
  wf_reg st ->
  exists st', on m r st = Ok r st'
    /\ live (msg_set st' m)
       = live (msg_set st m) ++ (if existsb (fref_eqb r) (live (msg_set st m)) then [] else [r])
    /\ (forall m', m' <> m -> msg_set st' m' = msg_set st m')
    /\ messages st' = (if existsb (Nat.eqb m) (messages st) then messages st
                       else messages st ++ [m])
    /\ tramps st' = tramps st /\ trace st' = trace st.
Proof. exact (on_spec st m r). Qed.

Lemma on_appends_listener_witness :
  wf_reg st_two /\
  exists st', on 0 (UserRef 3) st_two = Ok (UserRef 3) st'
    /\ live (msg_set st' 0)
       = live (msg_set st_two 0)
         ++ (if existsb (fref_eqb (UserRef 3)) (live (msg_set st_two 0)) then [] else [UserRef 3])
    /\ (forall m', m' <> 0 -> msg_set st' m' = msg_set st_two m')
    /\ messages st' = (if existsb (Nat.eqb 0) (messages st_two) then messages st_two
                       else messages st_two ++ [0])
    /\ tramps st' = tramps st_two /\ trace st' = trace st_two.
Proof. split; [exact wf_st_two|]. apply (on_appends_listener st_two 0 (UserRef 3) wf_st_two). Defined.

(** [Rx.on(m, r)] followed by [Rx.off(m, r)] for a listener not yet under
    [m]: [off] answers [true] and the Set's values, in order, and the other
    messages' Sets are as before. *)
Theorem on_off_roundtrip st m r :
  wf_reg st -> fref_ok (length (tramps st)) r -> ~ In r (live (msg_set st m)) ->
  exists st1 st2, on m r st = Ok r st1 /\ off m r st1 = Ok true st2
    /\ live (msg_set st2 m) = live (msg_set st m)
    /\ (forall m', m' <> m -> msg_set st2 m' = msg_set st m').
Proof.
  intros Hwf Hr Hn.
  destruct (on_spec st m r Hwf) as (st1 & Hon & L1 & O1 & _).
  destruct (wf_on st m r st1 r Hwf Hr Hon) as [Hwf1 _].
  destruct (off_spec st1 m r Hwf1) as (st2 & Hoff & L2 & O2 & _).
  replace (existsb (fref_eqb r) (live (msg_set st m))) with false in L1.
  2:{ symmetry. destruct (existsb (fref_eqb r) (live (msg_set st m))) eqn:E; auto.
      apply existsb_exists in E as [x [Hx Ex]]. apply fref_eqb_spec in Ex; subst; contradiction. }
  exists st1, st2. split; [exact Hon|]. split.
  - rewrite Hoff, L1. f_equal. apply existsb_exists. exists r.
    split; [apply in_or_app; right; left; reflexivity|apply fref_eqb_spec; reflexivity].
  - split.
    + rewrite L2, L1, remove_app. simpl. destruct (fref_eq_dec r r); [|congruence].
      rewrite app_nil_r. apply notin_remove; exact Hn.
    + intros m' Hne. rewrite O2, O1 by exact Hne. reflexivity.
Qed.

Lemma on_off_roundtrip_witness :
  wf_reg st_two /\ fref_ok (length (tramps st_two)) (UserRef 3)
  /\ ~ In (UserRef 3) (live (msg_set st_two 0))
  /\ exists st1 st2, on 0 (UserRef 3) st_two = Ok (UserRef 3) st1
       /\ off 0 (UserRef 3) st1 = Ok true st2
       /\ live (msg_set st2 0) = live (msg_set st_two 0)
       /\ (forall m', m' <> 0 -> msg_set st2 m' = msg_set st_two m').
Proof.
  assert (Hn : ~ In (UserRef 3) (live (msg_set st_two 0))).
  { simpl. intros [H|[H|[]]]; discriminate. }
  split; [exact wf_st_two|]. split; [exact I|]. split; [exact Hn|].
  exact (on_off_roundtrip st_two 0 (UserRef 3) wf_st_two I Hn).
Defined.

Lemma map_delete_spec l m :
  NoDup (map fst l) ->
  fst (map_delete l m) = existsb (Nat.eqb m) (map fst l)
  /\ map fst (snd (map_delete l m)) = remove Nat.eq_dec m (map fst l)
  /\ map_get (snd (map_delete l m)) m = None
  /\ (forall m', m' <> m -> map_get (snd (map_delete l m)) m' = map_get l m').
Proof.
  induction l as [|[k w] t IH]; simpl; intro Hnd.
  - repeat split; auto.
  - inversion Hnd as [|? ? Hn Hnd']; subst.
    destruct (Nat.eqb_spec k m) as [->|Hkm].
    + simpl. rewrite Nat.eqb_refl. destruct (Nat.eq_dec m m); [|congruence].
      split; [reflexivity|]. split; [symmetry; apply notin_remove; exact Hn|].
      split; [apply map_get_notin; exact Hn|].
      intros m' Hne. destruct (Nat.eqb_spec m m'); [congruence|reflexivity].
    + destruct (IH Hnd') as (I1 & I2 & I3 & I4).
      destruct (map_delete t m) as [b t'] eqn:Ed. simpl in *.
      rewrite (proj2 (Nat.eqb_neq m k)) by congruence.
      destruct (Nat.eq_dec m k) as [E|_]; [congruence|].
      split; [exact I1|]. split; [f_equal; exact I2|].
      rewrite (proj2 (Nat.eqb_neq k m)) by exact Hkm.
      split; [exact I3|].
      intros m' Hne. destruct (Nat.eqb k m'); auto.
Qed.

(** [Rx.off_all(m)] of the variant ([this.#subscribers.delete(msg)])
    answers whether [m] was a message, removes [m] and only [m] from the
    list of messages, and afterwards [Tx.send(m, ...)] answers [false]
    without calling anything; other messages keep their Sets. *)
Theorem off_all_removes_message st m :
  wf_reg st ->
  exists st', off_all m st = Ok (existsb (Nat.eqb m) (messages st)) st'
    /\ messages st' = remove Nat.eq_dec m (messages st)
    /\ (forall beh fuel args, send beh fuel m args st' = Ok false st')
    /\ (forall m', m' <> m -> msg_set st' m' = msg_set st m').
Proof.
  intros (Hfst & _). unfold off_all, messages.
  destruct (map_delete_spec (subs st) m Hfst) as (D1 & D2 & D3 & D4).
  destruct (map_delete (subs st) m) as [b s'] eqn:Ed. simpl in *. subst b.
  eexists; split; [reflexivity|]. simpl. split; [exact D2|]. split.
  - intros beh fuel args. unfold send; simpl. rewrite D3. reflexivity.
  - intros m' Hne. unfold msg_set, get_set; simpl. rewrite D4 by exact Hne. reflexivity.
Qed.

Lemma off_all_removes_message_witness :
  wf_reg st_two /\
  exists st', off_all 0 st_two = Ok (existsb (Nat.eqb 0) (messages st_two)) st'
    /\ messages st' = remove Nat.eq_dec 0 (messages st_two)
    /\ (forall beh fuel args, send beh fuel 0 args st' = Ok false st')
    /\ (forall m', m' <> 0 -> msg_set st' m' = msg_set st_two m').
Proof. split; [exact wf_st_two|]. apply (off_all_removes_message st_two 0 wf_st_two). Defined.

(** [Channel.clear()] empties the Map: no message is left, [Tx.send]
    answers [false] for every message without calling anything, and a
    later [Rx.on(m, r)] starts [m] over with the fresh Set [{r}], whatever
    listeners [m] had before.  The Set objects themselves are not
    touched. *)
Theorem clear_resets_channel st :
  exists st', clear st = Ok tt st'
    /\ messages st' = []
    /\ (forall beh fuel m args, send beh fuel m args st' = Ok false st')
    /\ (forall m r, exists st'', on m r st' = Ok r st'' /\ msg_set st'' m = [Some r])
    /\ sets st' = sets st.
Proof.
  eexists; split; [reflexivity|]. split; [reflexivity|]. split; [reflexivity|].
  split; [|reflexivity].
  intros m r. eexists; split; [reflexivity|].
  unfold msg_set, get_set; simpl. rewrite Nat.eqb_refl. apply nth_app_end.
Qed.

(** [Tx.send] answers whether the Set under [m] had a live value when it
    was called; when it answers [false] it has changed nothing. *)
Lemma send_answer beh fuel m args st b st' :
  send beh fuel m args st = Ok b st' ->
  b = (0 <? set_size (msg_set st m)) /\ (b = false -> st' = st).
Proof.
  unfold send, msg_set. destruct (map_get (subs st) m) as [a|].
  - destruct (0 <? set_size (get_set st a)).
    + unfold bind. destruct (iter beh fuel a 0 args st); try discriminate.
      unfold ret. intros [= <- _]. split; [reflexivity|discriminate].
    + intros [= <- <-]. split; reflexivity.
  - intros [= <- <-]. split; reflexivity.
Qed.

(** ** [Rx.onweak] *)

(** Registering a fresh trampoline [t] under a well-formed message. *)
Lemma tramp_shape st m t :
  (forall a, map_get (subs st) m = Some a -> wf_at st a) ->
  exists a1 st1, (f <- alloc_tramp t ;; on m f) st = Ok (TrampRef (length (tramps st))) st1
    /\ map_get (subs st1) m = Some a1
    /\ get_set st1 a1 = msg_set st m ++ [Some (TrampRef (length (tramps st)))]
    /\ wf_at st1 a1
    /\ tramps st1 = tramps st ++ [t] /\ dead st1 = dead st
    /\ trace st1 = trace st.
Proof.
  intros Hwf. set (f := TrampRef (length (tramps st))).
  set (st0 := with_tramps st (tramps st ++ [t])).
  assert (Hwf0 : forall a, map_get (subs st0) m = Some a -> wf_at st0 a).
  { intros a Ha. destruct (Hwf a Ha) as (H1 & H2 & H3). split; [exact H1|].
    split; [exact H2|]. intros k Hk. simpl. rewrite length_app; simpl.
    specialize (H3 k Hk). lia. }
  destruct (on_shape st0 m f Hwf0) as (a1 & st1 & Hon & Hm1 & Hg1 & Ha1 & Hl1 & Ht1 & Hd1 & Htr1).
  assert (Hnotin : ~ In f (live (msg_set st m))).
  { unfold msg_set. destruct (map_get (subs st) m) as [a|] eqn:Hm; [|simpl; tauto].
    apply tramp_fresh, Hwf. reflexivity. }
  assert (Hms : msg_set st0 m = msg_set st m) by reflexivity.
  rewrite Hms, set_add_notin in Hg1 by exact Hnotin.
  exists a1, st1. split; [exact Hon|]. split; [exact Hm1|]. split; [exact Hg1|].
  split; [|split; [exact Ht1|split; [exact Hd1|exact Htr1]]].
  split; [exact Ha1|]. rewrite Hg1, live_app. simpl. split.
  - apply NoDup_snoc; [|exact Hnotin]. unfold msg_set.
    destruct (map_get (subs st) m) as [a|] eqn:Hm; [apply (Hwf a eq_refl)|constructor].
  - intros k Hk. rewrite Ht1. simpl. rewrite length_app; simpl.
    apply in_app_or in Hk as [Hk|[Hk|[]]].
    + unfold msg_set in Hk. destruct (map_get (subs st) m) as [a|] eqn:Hm; [|contradiction].
      destruct (Hwf a eq_refl) as (_ & _ & H3). specialize (H3 k Hk). lia.
    + injection Hk as <-. lia.
Qed.

Lemma onweak_via st m u f st1 :
  (f0 <- alloc_tramp (TWeak m u) ;; on m f0) st = Ok f st1 ->
  onweak m u st = Ok (VFn (UserRef u)) st1.
Proof.
  unfold onweak, bind, alloc_tramp, ret.
  destruct (on m _ _); congruence.
Qed.

Lemma existsb_eqb_notin u l : ~ In u l -> existsb (Nat.eqb u) l = false.
Proof.
  intro Hn. destruct (existsb (Nat.eqb u) l) eqn:E; auto.
  apply existsb_eqb_In in E. contradiction.
Qed.

Lemma calls_to_own u args : calls_to u [(u, args)] = [(u, args)].
Proof. unfold calls_to; simpl. rewrite Nat.eqb_refl. reflexivity. Qed.

(** [Rx.onweak(m, L)] while [L] is alive: every [send(m, ...)] calls [L]
    (here two in a row, with [a] then [b]), and the trampoline stays
    registered. *)
Theorem onweak_live_delivers beh fuel m u a b st :
  passive beh -> wf_msg st m = true ->
  (forall r, In r (live (msg_set st m)) -> reaches st r u = false) ->
  ~ In u (dead st) ->
  length (msg_set st m) + 1 < fuel ->
  exists st1 st2 st3,
    onweak m u st = Ok (VFn (UserRef u)) st1
    /\ send beh fuel m a st1 = Ok true st2
    /\ send beh fuel m b st2 = Ok true st3
    /\ calls_to u (trace st3) = calls_to u (trace st) ++ [(u, a); (u, b)]
    /\ In (TrampRef (length (tramps st))) (live (msg_set st3 m)).
Proof.
  intros Hpas Hwfb Hu Hdead Hf.
  assert (Hwf : forall a0, map_get (subs st) m = Some a0 -> wf_at st a0)
    by (intros; eapply wf_msg_spec; eauto).
  destruct (msg_set_wf st m Hwf) as [Hnd Hbd].
  destruct (tramp_shape st m (TWeak m u) Hwf)
    as (a1 & st1 & Hreg & Hm1 & Hg1 & Hwf1 & Ht1 & Hd1 & Htr1).
  set (k := length (tramps st)) in *.
  set (d := msg_set st m) in *.
  destruct Hwf1 as (Ha1 & Hnd1 & _).
  assert (Hk : nth_error (tramps st1) k = Some (TWeak m u))
    by (rewrite Ht1; apply (nth_error_mid (tramps st) [] (TWeak m u))).
  assert (Halive : existsb (Nat.eqb u) (dead st1) = false)
    by (rewrite Hd1; apply existsb_eqb_notin; exact Hdead).
  assert (Hkeep : after_call st1 a1 (Some (TrampRef k)) = Some (TrampRef k))
    by (unfold after_call; simpl; rewrite Hk, Halive; reflexivity).
  assert (Hcalls : forall args, calls_of st1 (TrampRef k) args = [(u, args)])
    by (intro; simpl; rewrite Hk, Halive; reflexivity).
  assert (Hsz : 0 < set_size (get_set st1 a1)).
  { rewrite Hg1. apply (set_size_pos _ (TrampRef k)). rewrite live_app.
    apply in_or_app; right; left; reflexivity. }
  assert (Hf1 : length (get_set st1 a1) < fuel) by (rewrite Hg1, length_app; simpl; lia).
  destruct (send_passive beh Hpas st1 m a fuel a1 Hm1 Ha1 Hnd1 Hsz Hf1)
    as (st2 & Hs1 & Hc2 & Htr2 & Hl2 & Hg2).
  assert (Hreach : forall r, In r (live d) -> reaches st1 r u = false).
  { intros r Hr. rewrite (reaches_ext st st1 [TWeak m u]); auto.
    intros k' ->. apply Hbd; exact Hr. }
  assert (T1 : calls_to u (trace st2) = calls_to u (trace st) ++ [(u, a)]).
  { rewrite Htr2, Hg1, live_app, map_app, concat_app, !calls_to_app, Htr1.
    rewrite (calls_to_concat_nil st1 u a (live d) Hreach). cbn [live map concat].
    rewrite ?app_nil_r, ?app_nil_l, Hcalls, calls_to_own. reflexivity. }
  assert (Hm2 : map_get (subs st2) m = Some a1) by (destruct Hc2 as (-> & _); exact Hm1).
  assert (Hg2' : get_set st2 a1 = map (after_call st1 a1) d ++ [Some (TrampRef k)])
    by (rewrite Hg2, Hg1, map_app; cbn [map]; rewrite Hkeep; reflexivity).
  assert (Hnd2 : NoDup (live (get_set st2 a1)))
    by (rewrite Hg2; apply NoDup_live_after; exact Hnd1).
  assert (Hf2 : length (get_set st2 a1) < fuel) by (rewrite Hg2, length_map; exact Hf1).
  assert (Ha2 : a1 < length (sets st2)) by lia.
  assert (Hsz2 : 0 < set_size (get_set st2 a1)).
  { rewrite Hg2'. apply (set_size_pos _ (TrampRef k)). rewrite live_app.
    apply in_or_app; right; left; reflexivity. }
  destruct (send_passive beh Hpas st2 m b fuel a1 Hm2 Ha2 Hnd2 Hsz2 Hf2)
    as (st3 & Hs2 & Hc3 & Htr3 & _ & Hg3).
  exists st1, st2, st3. split; [exact (onweak_via st m u _ st1 Hreg)|].
  split; [exact Hs1|]. split; [exact Hs2|]. split.
  - rewrite Htr3, calls_to_app, T1, Hg2', live_app, map_app, concat_app, calls_to_app.
    rewrite calls_to_concat_nil.
    + cbn [live map concat]. rewrite ?app_nil_r, ?app_nil_l.
      rewrite (calls_of_ctx st1 st2 (TrampRef k)) by exact Hc2. rewrite Hcalls, calls_to_own.
      rewrite <- app_assoc. reflexivity.
    + intros r Hr. apply live_after_in in Hr.
      rewrite (reaches_ctx st1 st2) by exact Hc2. apply Hreach, Hr.
  - unfold msg_set. destruct Hc3 as (Hs3 & _). rewrite Hs3, Hm2, Hg3, Hg2', map_app, live_app.
    cbn [map]. rewrite (after_call_ctx st1 st2) by exact Hc2. rewrite Hkeep. cbn [live].
    apply in_or_app; right; left; reflexivity.
Qed.

(** [Rx.onweak(m, L)] once the host has collected [L]: the next
    [send(m, ...)] does not call [L], and the trampoline takes its own
    entry out of the Set ([self.off(msg, f)]). *)
Theorem onweak_collected_evicted beh fuel m u a st :
  passive beh -> wf_msg st m = true ->
  (forall r, In r (live (msg_set st m)) -> reaches st r u = false) ->
  length (msg_set st m) + 1 < fuel ->
  exists st1 st2,
    onweak m u st = Ok (VFn (UserRef u)) st1
    /\ send beh fuel m a (collect u st1) = Ok true st2
    /\ calls_to u (trace st2) = calls_to u (trace st)
    /\ ~ In (TrampRef (length (tramps st))) (live (msg_set st2 m)).
Proof.
  intros Hpas Hwfb Hu Hf.
  assert (Hwf : forall a0, map_get (subs st) m = Some a0 -> wf_at st a0)
    by (intros; eapply wf_msg_spec; eauto).
  destruct (msg_set_wf st m Hwf) as [Hnd Hbd].
  destruct (tramp_shape st m (TWeak m u) Hwf)
    as (a1 & st1 & Hreg & Hm1 & Hg1 & Hwf1 & Ht1 & Hd1 & Htr1).
  set (k := length (tramps st)) in *.
  set (d := msg_set st m) in *.
  destruct Hwf1 as (Ha1 & Hnd1 & _).
  set (sc := collect u st1).
  assert (Hk : nth_error (tramps sc) k = Some (TWeak m u))
    by (simpl; rewrite Ht1; apply (nth_error_mid (tramps st) [] (TWeak m u))).
  assert (Hgone : existsb (Nat.eqb u) (dead sc) = true)
    by (simpl; rewrite Nat.eqb_refl; reflexivity).
  assert (Hk1 : nth_error (tramps st1) k = Some (TWeak m u)) by exact Hk.
  assert (Hdrop : after_call sc a1 (Some (TrampRef k)) = None).
  { unfold after_call, self_removes. change (tramps sc) with (tramps st1).
    change (dead sc) with (u :: dead st1). change (subs sc) with (subs st1).
    rewrite Hk1, Hm1. simpl. rewrite !Nat.eqb_refl. reflexivity. }
  assert (Hcalls : calls_of sc (TrampRef k) a = []).
  { unfold calls_of. change (tramps sc) with (tramps st1).
    change (dead sc) with (u :: dead st1). rewrite Hk1. simpl. rewrite Nat.eqb_refl. reflexivity. }
  assert (Hsz : 0 < set_size (get_set sc a1)).
  { change (get_set sc a1) with (get_set st1 a1). rewrite Hg1.
    apply (set_size_pos _ (TrampRef k)). rewrite live_app.
    apply in_or_app; right; left; reflexivity. }
  assert (Hf1 : length (get_set sc a1) < fuel)
    by (change (get_set sc a1) with (get_set st1 a1); rewrite Hg1, length_app; simpl; lia).
  destruct (send_passive beh Hpas sc m a fuel a1 Hm1 Ha1 Hnd1 Hsz Hf1)
    as (st2 & Hs1 & Hc2 & Htr2 & _ & Hg2).
  assert (Hreach : forall r, In r (live d) -> reaches sc r u = false).
  { intros r Hr. rewrite (reaches_ext st sc [TWeak m u]); auto.
    intros k' ->. apply Hbd; exact Hr. }
  exists st1, st2. split; [exact (onweak_via st m u _ st1 Hreg)|].
  split; [exact Hs1|]. split.
  - rewrite Htr2. change (get_set sc a1) with (get_set st1 a1).
    rewrite Hg1, live_app, map_app, concat_app, !calls_to_app.
    rewrite (calls_to_concat_nil sc u a (live d) Hreach). cbn [live map concat].
    rewrite Hcalls. rewrite ?app_nil_r, ?app_nil_l. change (trace sc) with (trace st1).
    rewrite Htr1. reflexivity.
  - unfold msg_set. destruct Hc2 as (Hs2 & _). rewrite Hs2. change (subs sc) with (subs st1). rewrite Hm1, Hg2.
    change (get_set sc a1) with (get_set st1 a1). rewrite Hg1, map_app, live_app.
    cbn [map]. rewrite Hdrop. cbn [live]. rewrite app_nil_r. intro Hin.
    apply live_after_in in Hin. apply (tramp_fresh st (match map_get (subs st) m with Some x => x | None => 0 end)).
    + unfold d, msg_set in Hin. destruct (map_get (subs st) m) as [a0|] eqn:Hm; [|contradiction].
      apply Hwf; reflexivity.
    + unfold d, msg_set in Hin. destruct (map_get (subs st) m) as [a0|] eqn:Hm; [exact Hin|contradiction].
Qed.

Lemma onweak_live_delivers_witness :
  passive quiet_beh /\ wf_msg st_two 0 = true
  /\ (forall r, In r (live (msg_set st_two 0)) -> reaches st_two r 3 = false)
  /\ ~ In 3 (dead st_two) /\ length (msg_set st_two 0) + 1 < 5
  /\ exists st1 st2 st3,
       onweak 0 3 st_two = Ok (VFn (UserRef 3)) st1
       /\ send quiet_beh 5 0 [7] st1 = Ok true st2
       /\ send quiet_beh 5 0 [8] st2 = Ok true st3
       /\ calls_to 3 (trace st3) = calls_to 3 (trace st_two) ++ [(3, [7]); (3, [8])]
       /\ In (TrampRef (length (tramps st_two))) (live (msg_set st3 0)).
Proof.
  assert (Hr : forall r, In r (live (msg_set st_two 0)) -> reaches st_two r 3 = false)
    by (intros r [<-|[<-|[]]]; reflexivity).
  assert (Hd : ~ In 3 (dead st_two)) by (simpl; tauto).
  assert (Hf : length (msg_set st_two 0) + 1 < 5) by (simpl; lia).
  split; [exact quiet_passive|]. split; [reflexivity|]. split; [exact Hr|].
  split; [exact Hd|]. split; [exact Hf|].
  exact (onweak_live_delivers quiet_beh 5 0 3 [7] [8] st_two quiet_passive eq_refl Hr Hd Hf).
Defined.

Lemma onweak_collected_evicted_witness :
  passive quiet_beh /\ wf_msg st_two 0 = true
  /\ (forall r, In r (live (msg_set st_two 0)) -> reaches st_two r 3 = false)
  /\ length (msg_set st_two 0) + 1 < 5
  /\ exists st1 st2,
       onweak 0 3 st_two = Ok (VFn (UserRef 3)) st1
       /\ send quiet_beh 5 0 [7] (collect 3 st1) = Ok true st2
       /\ calls_to 3 (trace st2) = calls_to 3 (trace st_two)
       /\ ~ In (TrampRef (length (tramps st_two))) (live (msg_set st2 0)).
Proof.
  assert (Hr : forall r, In r (live (msg_set st_two 0)) -> reaches st_two r 3 = false)
    by (intros r [<-|[<-|[]]]; reflexivity).
  assert (Hf : length (msg_set st_two 0) + 1 < 5) by (simpl; lia).
  split; [exact quiet_passive|]. split; [reflexivity|]. split; [exact Hr|]. split; [exact Hf|].
  exact (onweak_collected_evicted quiet_beh 5 0 3 [7] st_two quiet_passive eq_refl Hr Hf).
Defined.

(** ** Cancelling a [once] subscription *)

Lemma remove_self x : remove fref_eq_dec x [x] = [].
Proof. simpl. destruct (fref_eq_dec x x) as [_|n]; [reflexivity|congruence]. Qed.

(** With passive listeners, a [send] over a Set none of whose values leads
    to [u] does not call [u]. *)
Lemma send_no_reach beh fuel m args st u :
  passive beh -> wf_reg st ->
  (forall r, In r (live (msg_set st m)) -> reaches st r u = false) ->
  length (msg_set st m) < fuel ->
  exists b st', send beh fuel m args st = Ok b st' /\ calls_to u (trace st') = calls_to u (trace st).
Proof.
  intros Hpas Hwf Hu Hf.
  destruct (Nat.eq_dec (set_size (msg_set st m)) 0) as [H0|H0].
  - exists false, st. split; [apply send_empty; exact H0|reflexivity].
  - unfold msg_set in *. destruct (map_get (subs st) m) as [a|] eqn:Hm; [|exfalso; apply H0; reflexivity].
    destruct (wf_get_set st a Hwf) as [Hnd _].
    pose proof Hwf as (_ & _ & H3 & _).
    pose proof (H3 _ (map_get_In _ _ _ Hm)) as Ha; simpl in Ha.
    destruct (send_passive beh Hpas st m args fuel a Hm Ha Hnd ltac:(lia) Hf)
      as (st' & Hs & _ & Htr & _).
    exists true, st'. split; [exact Hs|].
    rewrite Htr, calls_to_app, calls_to_concat_nil by exact Hu. apply app_nil_r.
Qed.

(** The trampoline returned by [Rx.once(m, L)] is the registered function:
    [Rx.off(m, f)] with it answers [true], and a following [send(m, ...)]
    no longer calls [L]. *)
Theorem once_cancel beh fuel m u a st :
  passive beh -> wf_reg st ->
  (forall r, In r (live (msg_set st m)) -> reaches st r u = false) ->
  length (msg_set st m) + 1 < fuel ->
  exists st1 st2 b st3,
    once m u st = Ok (TrampRef (length (tramps st))) st1
    /\ off m (TrampRef (length (tramps st))) st1 = Ok true st2
    /\ send beh fuel m a st2 = Ok b st3
    /\ calls_to u (trace st3) = calls_to u (trace st).
Proof.
  intros Hpas Hwf Hu Hf.
  assert (Hwfa : forall a0, map_get (subs st) m = Some a0 -> wf_at st a0)
    by (intros; eapply wf_msg_spec; [apply wf_reg_msg, Hwf|eassumption]).
  destruct (msg_set_wf st m Hwfa) as [Hnd Hbd].
  destruct (once_shape st m u Hwfa) as (a1 & st1 & Honce & Hm1 & Hg1 & _ & Ht1 & _ & Htr1).
  set (k := length (tramps st)) in *.
  set (d := msg_set st m) in *.
  assert (Hwf1 : wf_reg st1) by exact (wf_once st m u st1 _ Hwf Honce).
  assert (Hms1 : msg_set st1 m = d ++ [Some (TrampRef k)])
    by (unfold msg_set; rewrite Hm1; exact Hg1).
  assert (Hn : ~ In (TrampRef k) (live d)).
  { intro Hin. specialize (Hbd _ Hin). unfold k in Hbd. lia. }
  destruct (off_spec st1 m (TrampRef k) Hwf1)
    as (st2 & Hoff & L2 & _ & _ & T2 & Tr2 & Len2 & _).
  rewrite Hms1, live_app in Hoff, L2. rewrite Hms1 in Len2.
  replace (existsb (fref_eqb (TrampRef k)) (live d ++ live [Some (TrampRef k)])) with true in Hoff.
  2:{ symmetry. apply existsb_exists. exists (TrampRef k).
      split; [apply in_or_app; right; left; reflexivity|apply fref_eqb_spec; reflexivity]. }
  assert (Hwf2 : wf_reg st2) by exact (proj1 (wf_off st1 m _ st2 _ Hwf1 Hoff)).
  assert (Hl2 : live (msg_set st2 m) = live d).
  { rewrite L2, remove_app, (notin_remove _ _ _ Hn). cbn [live].
    rewrite remove_self. apply app_nil_r. }
  assert (Hu2 : forall r, In r (live (msg_set st2 m)) -> reaches st2 r u = false).
  { intros r Hr. rewrite Hl2 in Hr. rewrite (reaches_ext st st2 [TOnce m u]).
    - apply Hu, Hr.
    - rewrite T2; exact Ht1.
    - intros k' ->. apply Hbd, Hr. }
  assert (Hf2 : length (msg_set st2 m) < fuel) by (rewrite Len2, length_app; simpl; lia).
  destruct (send_no_reach beh fuel m a st2 u Hpas Hwf2 Hu2 Hf2) as (b & st3 & Hs & Hc).
  exists st1, st2, b, st3. split; [exact Honce|]. split; [exact Hoff|]. split; [exact Hs|].
  rewrite Hc, Tr2, Htr1. reflexivity.
Qed.

Lemma once_cancel_witness :
  passive quiet_beh /\ wf_reg st_two
  /\ (forall r, In r (live (msg_set st_two 0)) -> reaches st_two r 3 = false)
  /\ length (msg_set st_two 0) + 1 < 5
  /\ exists st1 st2 b st3,
       once 0 3 st_two = Ok (TrampRef (length (tramps st_two))) st1
       /\ off 0 (TrampRef (length (tramps st_two))) st1 = Ok true st2
       /\ send quiet_beh 5 0 [7] st2 = Ok b st3
       /\ calls_to 3 (trace st3) = calls_to 3 (trace st_two).
Proof.
  assert (Hr : forall r, In r (live (msg_set st_two 0)) -> reaches st_two r 3 = false)
    by (intros r [<-|[<-|[]]]; reflexivity).
  assert (Hf : length (msg_set st_two 0) + 1 < 5) by (simpl; lia).
  split; [exact quiet_passive|]. split; [exact wf_st_two|]. split; [exact Hr|]. split; [exact Hf|].
  exact (once_cancel quiet_beh 5 0 3 [7] st_two quiet_passive wf_st_two Hr Hf).
Defined.

(** ** [Tx.send_async]: timers run in order *)

Lemma nth_error_upd_same {A} (l : list A) n x :
  n < length l -> nth_error (upd l n x) n = Some x.
Proof. revert n; induction l; intros [|n] H; simpl in *; try lia; auto. apply IHl; lia. Qed.

Lemma nth_error_upd_other {A} (l : list A) n m x :
  n <> m -> nth_error (upd l n x) m = nth_error l m.
Proof. revert n m; induction l; intros [|n] [|m] H; simpl; auto; try lia. Qed.

(** Two [send_async] calls made in a row get distinct promises; the host
    runs their timers in the order of the calls, so the second [send] sees
    the registry left by the first, and each promise resolves to the
    result of its own [send]. *)
Theorem send_async_fifo beh fuel w m1 a1 m2 a2 b1 b2 st1 st2 :
  timers w = [] ->
  send beh fuel m1 a1 (reg w) = Ok b1 st1 ->
  send beh fuel m2 a2 st1 = Ok b2 st2 ->
  let (p1, w1) := send_async m1 a1 w in
  let (p2, w2) := send_async m2 a2 w1 in
  p1 <> p2
  /\ exists w3 w4, run_timer beh fuel w2 = Some w3 /\ run_timer beh fuel w3 = Some w4
     /\ reg w4 = st2 /\ timers w4 = []
     /\ nth_error (promises w4) p1 = Some (Resolved b1)
     /\ nth_error (promises w4) p2 = Some (Resolved b2).
Proof.
  intros Ht H1 H2. unfold send_async. simpl. split; [rewrite length_app; simpl; lia|].
  unfold run_timer at 1. simpl. rewrite Ht. simpl. rewrite H1.
  eexists; eexists; split; [reflexivity|].
  unfold run_timer. simpl. rewrite H2.
  split; [reflexivity|]. split; [reflexivity|]. split; [reflexivity|]. simpl.
  split.
  - rewrite nth_error_upd_other by (rewrite length_app; simpl; lia).
    apply nth_error_upd_same. rewrite !length_app; simpl; lia.
  - apply nth_error_upd_same. rewrite length_upd, !length_app; simpl; lia.
Qed.

Lemma send_async_fifo_witness :
  timers w_two = []
  /\ send quiet_beh 5 0 [7] (reg w_two) = Ok true (with_trace st_two [(1, [7]); (2, [7])])
  /\ send quiet_beh 5 0 [8] (with_trace st_two [(1, [7]); (2, [7])])
     = Ok true (with_trace st_two [(1, [7]); (2, [7]); (1, [8]); (2, [8])])
  /\ let (p1, w1) := send_async 0 [7] w_two in
     let (p2, w2) := send_async 0 [8] w1 in
     p1 <> p2
     /\ exists w3 w4, run_timer quiet_beh 5 w2 = Some w3 /\ run_timer quiet_beh 5 w3 = Some w4
        /\ reg w4 = with_trace st_two [(1, [7]); (2, [7]); (1, [8]); (2, [8])] /\ timers w4 = []
        /\ nth_error (promises w4) p1 = Some (Resolved true)
        /\ nth_error (promises w4) p2 = Some (Resolved true).
Proof.
  assert (H1 : send quiet_beh 5 0 [7] (reg w_two) = Ok true (with_trace st_two [(1, [7]); (2, [7])]))
    by reflexivity.
  assert (H2 : send quiet_beh 5 0 [8] (with_trace st_two [(1, [7]); (2, [7])])
               = Ok true (with_trace st_two [(1, [7]); (2, [7]); (1, [8]); (2, [8])]))
    by reflexivity.
  split; [reflexivity|]. split; [exact H1|]. split; [exact H2|].
  exact (send_async_fifo quiet_beh 5 w_two 0 [7] 0 [8] true true _ _ eq_refl H1 H2).
Defined.

(** ** [Channel.add] touches one host *)

(** [Channel.add(h)] changes the association of [h] only: for any other
    host, [has] and [get] answer as before. *)
Theorem assoc_add_other h h' t :
  h' <> h ->
  exists t', Assoc.add h t = Assoc.RVal tt t'
    /\ Assoc.has h' t' = Assoc.has h' t
    /\ (forall c, Assoc.get h' t = Assoc.RVal c t <-> Assoc.get h' t' = Assoc.RVal c t').
Proof.
  intro Hne. eexists; split; [reflexivity|].
  unfold Assoc.has, Assoc.get; simpl. rewrite map_get_set_other by exact Hne.
  split; [reflexivity|]. intro c.
  destruct (map_get (Assoc.channels t) h'); split; intro E; congruence.
Qed.

Lemma assoc_add_other_witness :
  3 <> 5 /\
  exists t', Assoc.add 5 (Assoc.mkTable [(3, 0)] 1) = Assoc.RVal tt t'
    /\ Assoc.has 3 t' = Assoc.has 3 (Assoc.mkTable [(3, 0)] 1)
    /\ (forall c, Assoc.get 3 (Assoc.mkTable [(3, 0)] 1) = Assoc.RVal c (Assoc.mkTable [(3, 0)] 1)
                  <-> Assoc.get 3 t' = Assoc.RVal c t').
Proof.
  assert (H : 3 <> 5) by discriminate.
  split; [exact H|]. exact (assoc_add_other 5 3 (Assoc.mkTable [(3, 0)] 1) H).
Defined.

(** * Listener bodies that use the registry *)

(** ** What every step of a [send] keeps *)

(** [P] holds of the state an outcome ends in, if it ends. *)
Definition kept (P : state -> Prop) {A} (o : outcome A) : Prop :=
  match o with Ok _ st | Exn st => P st | NoFuel => True end.

Lemma off_ok st m r : exists b st', off m r st = Ok b st'.
Proof.
  unfold off. destruct (map_get (subs st) m) as [a|];
    [destruct (set_delete (get_set st a) r)|]; do 2 eexists; reflexivity.
Qed.

Lemma off_ctx st m r b st' :
  off m r st = Ok b st' ->
  subs st' = subs st /\ tramps st' = tramps st /\ dead st' = dead st /\ trace st' = trace st.
Proof.
  unfold off. destruct (map_get (subs st) m) as [a|];
    [destruct (set_delete (get_set st a) r)|]; intros [= <- <-]; repeat split.
Qed.

Section Keep.

Variable beh : nat -> list action.
Variable P : state -> Prop.

(** [P] survives every registry call a listener body makes, the
    trampolines removing themselves, and the recording of a call. *)
Hypothesis P_off : forall u m r st b st',
  In (AOff m r) (beh u) -> P st -> off m r st = Ok b st' -> P st'.
Hypothesis P_on : forall u m r st st',
  In (AOn m r) (beh u) -> P st -> on m r st = Ok r st' -> P st'.
Hypothesis P_clear : forall u st, In AClear (beh u) -> P st -> P (with_subs st []).
Hypothesis P_self : forall k m v st b st',
  (nth_error (tramps st) k = Some (TOnce m v) \/ nth_error (tramps st) k = Some (TWeak m v)) ->
  P st -> off m (TrampRef k) st = Ok b st' -> P st'.
Hypothesis P_trace : forall st t, P st -> P (with_trace st t).

Lemma run_actions_kept u : forall l st, incl l (beh u) -> P st -> kept P (run_actions l st).
Proof.
  induction l as [|x l IH]; intros st Hl Hp; [exact Hp|].
  assert (Ht : incl l (beh u)) by (intros y Hy; apply Hl; right; exact Hy).
  assert (Hx : In x (beh u)) by (apply Hl; left; reflexivity).
  destruct x as [m r|m r| |]; cbn [run_actions]; unfold bind.
  - destruct (off_ok st m r) as (b & st1 & E). rewrite E.
    apply IH; [exact Ht|]. exact (P_off u m r st b st1 Hx Hp E).
  - destruct (on_ok st m r) as (st1 & E). rewrite E.
    apply IH; [exact Ht|]. exact (P_on u m r st st1 Hx Hp E).
  - apply IH; [exact Ht|]. exact (P_clear u st Hx Hp).
  - exact Hp.
Qed.

Lemma call_user_kept u args st : P st -> kept P (call_user beh u args st).
Proof.
  intro Hp. unfold call_user.
  apply (run_actions_kept u); [intros y Hy; exact Hy|]. apply P_trace, Hp.
Qed.

Lemma call_kept r args st : P st -> kept P (call beh r args st).
Proof.
  intro Hp. destruct r as [u|k]; cbn [call].
  - apply call_user_kept, Hp.
  - destruct (nth_error (tramps st) k) as [[m v|m v]|] eqn:Hk.
    + unfold bind. destruct (off_ok st m (TrampRef k)) as (b & st1 & E). rewrite E.
      apply call_user_kept. exact (P_self k m v st b st1 (or_introl Hk) Hp E).
    + destruct (existsb (Nat.eqb v) (dead st)).
      * unfold bind, ret. destruct (off_ok st m (TrampRef k)) as (b & st1 & E). rewrite E.
        exact (P_self k m v st b st1 (or_intror Hk) Hp E).
      * apply call_user_kept, Hp.
    + exact Hp.
Qed.

Lemma iter_kept fuel : forall a i args st, P st -> kept P (iter beh fuel a i args st).
Proof.
  induction fuel as [|f IH]; intros a i args st Hp; cbn [iter]; [exact I|].
  destruct (nth_error (get_set st a) i) as [[r|]|]; [|apply IH, Hp|exact Hp].
  unfold bind. pose proof (call_kept r args st Hp) as Hc.
  destruct (call beh r args st) as [x st1|st1|]; [apply IH, Hc|exact Hc|exact I].
Qed.

Lemma send_kept fuel m args st : P st -> kept P (send beh fuel m args st).
Proof.
  intro Hp. unfold send. destruct (map_get (subs st) m) as [a|]; [|exact Hp].
  destruct (0 <? set_size (get_set st a)); [|exact Hp].
  unfold bind, ret. pose proof (iter_kept fuel a 0 args st Hp) as Hi.
  destruct (iter beh fuel a 0 args st); [exact Hi|exact Hi|exact I].
Qed.

End Keep.

(** ** The trace of a call *)

Lemma run_actions_ctx l : forall st st' x, run_actions l st = Ok x st' ->
  trace st' = trace st /\ tramps st' = tramps st /\ dead st' = dead st.
Proof.
  induction l as [|y l IH]; intros st st' x E.
  - cbn in E. injection E as _ <-. repeat split.
  - destruct y as [m r|m r| |]; cbn [run_actions] in E; unfold bind, throw in E.
    + destruct (off_ok st m r) as (b & st1 & E1). rewrite E1 in E.
      destruct (IH _ _ _ E) as (H1 & H2 & H3).
      destruct (off_ctx _ _ _ _ _ E1) as (_ & H5 & H6 & H7).
      repeat split; congruence.
    + destruct (on_ok st m r) as (st1 & E1). rewrite E1 in E.
      destruct (IH _ _ _ E) as (H1 & H2 & H3).
      unfold on in E1. destruct (map_get (subs st) m); injection E1 as <-;
        simpl in H1, H2, H3; repeat split; assumption.
    + destruct (IH _ _ _ E) as (H1 & H2 & H3). simpl in H1, H2, H3.
      repeat split; assumption.
    + discriminate.
Qed.

(** A call that returns records what [calls_of] predicts and leaves the
    trampolines and the collected listeners alone. *)
Lemma call_trace beh r args st st' x :
  call beh r args st = Ok x st' ->
  trace st' = trace st ++ calls_of st r args /\ tramps st' = tramps st /\ dead st' = dead st.
Proof.
  intro E. destruct r as [u|k]; cbn [call] in E.
  - unfold call_user in E. destruct (run_actions_ctx _ _ _ _ E) as (H1 & H2 & H3).
    simpl in H1, H2, H3. repeat split; assumption.
  - unfold calls_of. destruct (nth_error (tramps st) k) as [[m v|m v]|] eqn:Hk.
    + unfold bind in E. destruct (off_ok st m (TrampRef k)) as (b & st1 & E1). rewrite E1 in E.
      unfold call_user in E. destruct (run_actions_ctx _ _ _ _ E) as (H1 & H2 & H3).
      destruct (off_ctx _ _ _ _ _ E1) as (_ & H5 & H6 & H7). simpl in H1, H2, H3.
      repeat split; congruence.
    + destruct (existsb (Nat.eqb v) (dead st)).
      * unfold bind, ret in E. destruct (off_ok st m (TrampRef k)) as (b & st1 & E1).
        rewrite E1 in E. injection E as _ <-.
        destruct (off_ctx _ _ _ _ _ E1) as (_ & H5 & H6 & H7).
        rewrite app_nil_r. repeat split; assumption.
      * unfold call_user in E. destruct (run_actions_ctx _ _ _ _ E) as (H1 & H2 & H3).
        simpl in H1, H2, H3. repeat split; assumption.
    + injection E as _ <-. rewrite app_nil_r. repeat split.
Qed.

(** ** Entries of a Set by position *)

Lemma set_delete_nth d r p :
  nth_error (snd (set_delete d r)) p = nth_error d p
  \/ (nth_error d p = Some (Some r) /\ nth_error (snd (set_delete d r)) p = Some None).
Proof.
  revert p; induction d as [|e t IH]; intros p; simpl; [left; reflexivity|].
  destruct (is_entry r e) eqn:Ee.
  - destruct p as [|p]; simpl; [|left; reflexivity].
    right. destruct e as [r'|]; [|discriminate]. simpl in Ee.
    apply fref_eqb_spec in Ee. subst. split; reflexivity.
  - destruct (set_delete t r) as [b t'] eqn:Ed.
    destruct p as [|p]; simpl; [left; reflexivity|].
    specialize (IH p). rewrite ?Ed in IH. exact IH.
Qed.

Lemma in_live_nth d r : In r (live d) -> exists j, nth_error d j = Some (Some r).
Proof.
  induction d as [|[x|] t IH]; simpl; [tauto| |].
  - intros [->|H]; [exists 0; reflexivity|].
    destruct (IH H) as [j Hj]; exists (S j); exact Hj.
  - intro H. destruct (IH H) as [j Hj]; exists (S j); exact Hj.
Qed.

Lemma nth_live d p r : nth_error d p = Some (Some r) -> In r (live d).
Proof.
  revert p; induction d as [|[x|] t IH]; intros [|p] H; simpl in *; try discriminate.
  - injection H as ->; left; reflexivity.
  - right; exact (IH p H).
  - exact (IH p H).
Qed.

Lemma live_nth_unique d j p r :
  NoDup (live d) -> nth_error d j = Some (Some r) -> nth_error d p = Some (Some r) -> p = j.
Proof.
  revert j p; induction d as [|[x|] t IH]; intros j p Hnd Hj Hp.
  - destruct j; discriminate.
  - simpl in Hnd. inversion Hnd as [|? ? Hn Hnd']; subst.
    destruct j as [|j], p as [|p]; simpl in Hj, Hp; try reflexivity.
    + injection Hj as ->. exfalso; apply Hn, (nth_live _ _ _ Hp).
    + injection Hp as ->. exfalso; apply Hn, (nth_live _ _ _ Hj).
    + f_equal. apply (IH j p Hnd' Hj Hp).
  - destruct j as [|j], p as [|p]; simpl in Hj, Hp; try discriminate.
    f_equal. apply (IH j p Hnd Hj Hp).
Qed.

Lemma set_has_nth d j r : nth_error d j = Some (Some r) -> set_has d r = true.
Proof.
  intro H. unfold set_has. apply existsb_exists. exists (Some r). split.
  - exact (nth_error_In _ _ H).
  - simpl. apply fref_eqb_spec. reflexivity.
Qed.

(** ** A listener nobody else touches

    User listener [u] sits at position [j] of the Set at address [a], and
    no other value of that Set leads to [u]. *)
Definition pinned (a j u : nat) (T : list tramp) (st : state) : Prop :=
  tramps st = T /\ a < length (sets st)
  /\ nth_error (get_set st a) j = Some (Some (UserRef u))
  /\ (forall p r, p <> j -> nth_error (get_set st a) p = Some (Some r) -> reaches st r u = false).

Lemma pinned_off a j u T st m r b st' :
  r <> UserRef u -> pinned a j u T st -> off m r st = Ok b st' -> pinned a j u T st'.
Proof.
  intros Hr (Ht & Ha & Hj & Ho) E. unfold off in E.
  destruct (map_get (subs st) m) as [a'|] eqn:Hm.
  2:{ injection E as _ <-. exact (conj Ht (conj Ha (conj Hj Ho))). }
  destruct (set_delete (get_set st a') r) as [b' d'] eqn:Ed. injection E as _ <-.
  split; [exact Ht|]. split; [unfold put_set; simpl; rewrite length_upd; exact Ha|].
  destruct (Nat.eq_dec a' a) as [->|Hne].
  - assert (Hg : get_set (put_set st a d') a = d')
      by (unfold get_set, put_set; simpl; apply nth_upd_same, Ha).
    rewrite Hg.
    assert (Hd : forall p, nth_error d' p = nth_error (get_set st a) p
                 \/ (nth_error (get_set st a) p = Some (Some r) /\ nth_error d' p = Some None)).
    { intro p. pose proof (set_delete_nth (get_set st a) r p) as H. rewrite Ed in H. exact H. }
    split.
    + destruct (Hd j) as [->|[H _]]; [exact Hj|]. congruence.
    + intros p r0 Hp Hr0. rewrite (reaches_tramps st) by reflexivity.
      destruct (Hd p) as [H|[_ H]]; rewrite H in Hr0; [exact (Ho p r0 Hp Hr0)|discriminate].
  - assert (Hg : get_set (put_set st a' d') a = get_set st a)
      by (unfold get_set, put_set; simpl; apply nth_upd_other, Hne).
    rewrite Hg. split; [exact Hj|]. intros p r0 Hp Hr0.
    rewrite (reaches_tramps st) by reflexivity. exact (Ho p r0 Hp Hr0).
Qed.

Lemma pinned_on a j u T st m r st' :
  (r = UserRef u \/ reaches st r u = false) ->
  pinned a j u T st -> on m r st = Ok r st' -> pinned a j u T st'.
Proof.
  intros Hr (Ht & Ha & Hj & Ho) E. unfold on in E.
  destruct (map_get (subs st) m) as [a'|] eqn:Hm; injection E as <-.
  - split; [exact Ht|]. split; [unfold put_set; simpl; rewrite length_upd; exact Ha|].
    destruct (Nat.eq_dec a' a) as [->|Hne].
    + assert (Hg : get_set (put_set st a (set_add (get_set st a) r)) a = set_add (get_set st a) r)
        by (unfold get_set, put_set; simpl; apply nth_upd_same, Ha).
      rewrite Hg. unfold set_add. destruct (set_has (get_set st a) r) eqn:Hh.
      * split; [exact Hj|]. intros p r0 Hp Hr0.
        rewrite (reaches_tramps st) by reflexivity. exact (Ho p r0 Hp Hr0).
      * assert (Hjl : j < length (get_set st a))
          by (apply nth_error_Some; rewrite Hj; discriminate).
        split; [rewrite nth_error_app1 by exact Hjl; exact Hj|].
        intros p r0 Hp Hr0. rewrite (reaches_tramps st) by reflexivity.
        destruct (Nat.lt_ge_cases p (length (get_set st a))) as [Hlt|Hge].
        -- rewrite nth_error_app1 in Hr0 by exact Hlt. exact (Ho p r0 Hp Hr0).
        -- rewrite nth_error_app2 in Hr0 by exact Hge.
           destruct (p - length (get_set st a)) as [|q]; simpl in Hr0;
             [|destruct q; simpl in Hr0; discriminate].
           injection Hr0 as <-. destruct Hr as [->|Hr]; [|exact Hr].
           rewrite (set_has_nth _ _ _ Hj) in Hh. discriminate.
    + assert (Hg : get_set (put_set st a' (set_add (get_set st a') r)) a = get_set st a)
        by (unfold get_set, put_set; simpl; apply nth_upd_other, Hne).
      rewrite Hg. split; [exact Hj|]. intros p r0 Hp Hr0.
      rewrite (reaches_tramps st) by reflexivity. exact (Ho p r0 Hp Hr0).
  - assert (Hg : get_set (with_subs (with_sets st (sets st ++ [[Some r]]))
                           (map_set (subs st) m (length (sets st)))) a = get_set st a)
      by (unfold get_set; simpl; apply app_nth1, Ha).
    split; [exact Ht|]. split; [simpl; rewrite length_app; lia|].
    rewrite Hg. split; [exact Hj|]. intros p r0 Hp Hr0.
    rewrite (reaches_tramps st) by reflexivity. exact (Ho p r0 Hp Hr0).
Qed.

Section Pinned.

Variable beh : nat -> list action.
Variable st0 : state.
Variables a j u : nat.
Variable args : list arg.

(** No body unsubscribes [u], and every function a body subscribes is [u]
    itself or does not lead to [u]. *)
Hypothesis Hoff : forall v m, ~ In (AOff m (UserRef u)) (beh v).
Hypothesis Hon : forall v m r, In (AOn m r) (beh v) -> r = UserRef u \/ reaches st0 r u = false.

Lemma pinned_call r st :
  pinned a j u (tramps st0) st -> kept (pinned a j u (tramps st0)) (call beh r args st).
Proof.
  apply call_kept.
  - intros v m r' s b s' Hin Hp E. apply (pinned_off a j u _ s m r' b s'); [|exact Hp|exact E].
    intros ->. exact (Hoff v m Hin).
  - intros v m r' s s' Hin Hp E. apply (pinned_on a j u _ s m r' s'); [|exact Hp|exact E].
    destruct (Hon v m r' Hin) as [H|H]; [left; exact H|right].
    rewrite (reaches_tramps st0); [exact H|exact (proj1 Hp)].
  - intros v s _ Hp. exact Hp.
  - intros k m v s b s' _ Hp E.
    apply (pinned_off a j u _ s m (TrampRef k) b s'); [discriminate|exact Hp|exact E].
  - intros s t Hp. exact Hp.
Qed.

(** The loop from index [i] calls [u] once if [u] is still ahead of it,
    and not at all otherwise. *)
Lemma iter_pinned fuel : forall i st st' x,
  pinned a j u (tramps st0) st -> iter beh fuel a i args st = Ok x st' ->
  calls_to u (trace st') = calls_to u (trace st) ++ (if i <=? j then [(u, args)] else []).
Proof.
  induction fuel as [|f IH]; intros i st st' x Hp E; cbn [iter] in E; [discriminate|].
  pose proof Hp as (Ht & Ha & Hj & Ho).
  assert (Hstep : i <> j -> (S i <=? j) = (i <=? j)).
  { intro Hne. destruct (Nat.leb_spec i j), (Nat.leb_spec (S i) j); try lia; reflexivity. }
  destruct (nth_error (get_set st a) i) as [[r|]|] eqn:Ei.
  - unfold bind in E. destruct (call beh r args st) as [y st1| |] eqn:Ec; try discriminate.
    pose proof (pinned_call r st Hp) as Hp1. rewrite Ec in Hp1.
    destruct (call_trace beh r args st st1 y Ec) as (Htr & _ & _).
    rewrite (IH (S i) st1 st' x Hp1 E), Htr, calls_to_app, <- app_assoc. f_equal.
    destruct (Nat.eq_dec i j) as [->|Hne].
    + rewrite Hj in Ei. injection Ei as <-. cbn [calls_of]. rewrite calls_to_own.
      rewrite Nat.leb_refl. replace (S j <=? j) with false by (symmetry; apply Nat.leb_gt; lia).
      reflexivity.
    + rewrite calls_of_unreached by exact (Ho i r Hne Ei). rewrite (Hstep Hne). reflexivity.
  - destruct (Nat.eq_dec i j) as [->|Hne]; [rewrite Hj in Ei; discriminate|].
    rewrite (IH (S i) st st' x Hp E), (Hstep Hne). reflexivity.
  - injection E as _ <-.
    assert (Hjl : j < length (get_set st a)) by (apply nth_error_Some; rewrite Hj; discriminate).
    apply nth_error_None in Ei.
    replace (i <=? j) with false by (symmetry; apply Nat.leb_gt; lia).
    rewrite app_nil_r. reflexivity.
Qed.

End Pinned.

(** The general delivery argument for one listener: if [u] is in the Set
    under [m] when [send] starts, no other value of the Set leads to [u],
    no body unsubscribes [u], and bodies subscribe only [u] or functions
    not leading to [u], then a [send] that returns called [u] exactly once,
    with [args], and returned [true]. *)
Lemma send_pinned beh fuel m args st u b st' :
  wf_msg st m = true -> In (UserRef u) (live (msg_set st m)) ->
  (forall r, In r (live (msg_set st m)) -> r <> UserRef u -> reaches st r u = false) ->
  (forall v m', ~ In (AOff m' (UserRef u)) (beh v)) ->
  (forall v m' r, In (AOn m' r) (beh v) -> r = UserRef u \/ reaches st r u = false) ->
  send beh fuel m args st = Ok b st' ->
  b = true /\ calls_to u (trace st') = calls_to u (trace st) ++ [(u, args)].
Proof.
  intros Hwf Hin Hu Hoff Hon E. unfold msg_set in Hin, Hu.
  destruct (map_get (subs st) m) as [a|] eqn:Hm; [|contradiction].
  destruct (wf_msg_spec st m a Hwf Hm) as (Ha & Hnd & _).
  destruct (in_live_nth _ _ Hin) as [j Hj].
  assert (Hp : pinned a j u (tramps st) st).
  { split; [reflexivity|]. split; [exact Ha|]. split; [exact Hj|].
    intros p r Hne Hr. apply Hu; [exact (nth_live _ _ _ Hr)|].
    intros ->. apply Hne. exact (live_nth_unique _ _ _ _ Hnd Hj Hr). }
  unfold send in E. rewrite Hm in E.
  rewrite (proj2 (Nat.ltb_lt _ _) (set_size_pos _ _ Hin)) in E.
  unfold bind, ret in E. destruct (iter beh fuel a 0 args st) as [x st1| |] eqn:Ei; try discriminate.
  injection E as <- <-. split; [reflexivity|].
  rewrite (iter_pinned beh st a j u args Hoff Hon fuel 0 st st1 x Hp Ei). reflexivity.
Qed.

(** ** Keys of the Map *)

Lemma map_set_keys l m v : incl (map fst l) (map fst (map_set l m v)).
Proof.
  induction l as [|[k w] t IH]; simpl; [intros x []|].
  destruct (Nat.eqb k m); simpl; [apply incl_refl|].
  apply incl_cons; [left; reflexivity|]. intros x Hx; right; exact (IH x Hx).
Qed.

Lemma on_messages_incl st m r r' st' :
  on m r st = Ok r' st' -> incl (messages st) (messages st').
Proof.
  unfold on, messages. destruct (map_get (subs st) m); intros [= _ <-]; simpl.
  - apply incl_refl.
  - apply map_set_keys.
Qed.

(** Listeners 1, 2 then 3 subscribed to message 0 of a fresh channel. *)
Definition st_three : state :=
  mkState [(0, 0)] [[Some (UserRef 1); Some (UserRef 2); Some (UserRef 3)]] [] [] [].

(** Listener 1 alone subscribed to message 0 of a fresh channel. *)
Definition st_one : state := mkState [(0, 0)] [[Some (UserRef 1)]] [] [] [].

Lemma wf_st_one : wf_reg st_one.
Proof.
  unfold wf_reg, st_one; simpl. split; [repeat constructor; simpl; tauto|].
  split; [repeat constructor; simpl; tauto|]. split; [intros p [<-|[]]; simpl; lia|].
  constructor; [|constructor]. split.
  - constructor; [simpl; tauto|constructor].
  - intros k [H|[]]; discriminate.
Qed.

(** ** C1: [Tx.send] *)

(** C1 (amended): [send(m, args)] with no Set or an empty Set under [m]
    returns [false] and leaves the state untouched; otherwise, when it
    returns, it returns [true].  Whatever the listeners' bodies do, a user
    listener [u] in the Set when [send] starts is called exactly once with
    [args], provided no body unsubscribes it, no other value of the Set
    leads to it, and bodies subscribe only [u] or functions not leading to
    it.  When the bodies do not touch the registry or throw (the [once] and
    [onweak] trampolines may remove themselves), every listener of the Set
    is called once, in insertion order. *)
Theorem send_delivers beh fuel m args st :
  (set_size (msg_set st m) = 0 -> send beh fuel m args st = Ok false st)
  /\ (forall b st', 0 < set_size (msg_set st m) -> send beh fuel m args st = Ok b st' -> b = true)
  /\ (forall u b st', wf_msg st m = true -> In (UserRef u) (live (msg_set st m)) ->
        (forall r, In r (live (msg_set st m)) -> r <> UserRef u -> reaches st r u = false) ->
        (forall v m', ~ In (AOff m' (UserRef u)) (beh v)) ->
        (forall v m' r, In (AOn m' r) (beh v) -> r = UserRef u \/ reaches st r u = false) ->
        send beh fuel m args st = Ok b st' ->
        calls_to u (trace st') = calls_to u (trace st) ++ [(u, args)])
  /\ (passive beh -> wf_msg st m = true -> 0 < set_size (msg_set st m) ->
      length (msg_set st m) < fuel ->
      exists st', send beh fuel m args st = Ok true st'
        /\ trace st' = trace st
                       ++ concat (map (fun r => calls_of st r args) (live (msg_set st m)))).
Proof.
  split; [apply send_empty|]. split.
  { intros b st' Hsz E. destruct (send_answer _ _ _ _ _ _ _ E) as [Hb _].
    rewrite Hb. apply Nat.ltb_lt, Hsz. }
  split.
  { intros u b st' Hwf Hin Hu Hoff Hon E.
    exact (proj2 (send_pinned beh fuel m args st u b st' Hwf Hin Hu Hoff Hon E)). }
  intros Hpas Hwf Hsz Hf. unfold msg_set in *.
  destruct (map_get (subs st) m) as [a|] eqn:Hm; [|unfold set_size in Hsz; simpl in Hsz; lia].
  destruct (wf_msg_spec st m a Hwf Hm) as (Ha & Hnd & _).
  destruct (send_passive beh Hpas st m args fuel a Hm Ha Hnd Hsz Hf)
    as (st' & Hs & _ & Htr & _ & _).
  exists st'; split; assumption.
Qed.

Lemma send_delivers_witness :
  set_size (msg_set empty_state 0) = 0
  /\ send quiet_beh 5 0 [7] empty_state = Ok false empty_state
  /\ (exists b st', send quiet_beh 5 0 [7] st_two = Ok b st' /\ b = true)
  /\ (exists st', send skip_beh 10 0 [7] st_three = Ok true st'
        /\ calls_to 3 (trace st') = calls_to 3 (trace st_three) ++ [(3, [7])])
  /\ exists st', send quiet_beh 5 0 [7] st_two = Ok true st'
       /\ trace st' = trace st_two
                      ++ concat (map (fun r => calls_of st_two r [7]) (live (msg_set st_two 0))).
Proof.
  split; [reflexivity|].
  split; [apply (proj1 (send_delivers quiet_beh 5 0 [7] empty_state)); reflexivity|].
  split.
  { do 2 eexists; split; [vm_compute; reflexivity|].
    eapply (proj1 (proj2 (send_delivers quiet_beh 5 0 [7] st_two)));
      [vm_compute; lia|vm_compute; reflexivity]. }
  split.
  { eexists; split; [vm_compute; reflexivity|].
    apply (proj1 (proj2 (proj2 (send_delivers skip_beh 10 0 [7] st_three))) 3 true).
    - reflexivity.
    - simpl; tauto.
    - intros r Hr Hne. simpl in Hr. destruct Hr as [<-|[<-|[<-|[]]]];
        [reflexivity|reflexivity|congruence].
    - intros v m' H. unfold skip_beh in H. destruct (Nat.eqb v 1); simpl in H;
        [destruct H as [H|[]]; congruence|exact H].
    - intros v m' r H. exfalso. unfold skip_beh in H. destruct (Nat.eqb v 1); simpl in H;
        [destruct H as [H|[]]; congruence|exact H].
    - vm_compute; reflexivity. }
  apply (proj2 (proj2 (proj2 (send_delivers quiet_beh 5 0 [7] st_two))) quiet_passive eq_refl);
    vm_compute; lia.
Defined.

(** C1 fails: listener 2 is registered under message 0 when [send] starts,
    but listener 1 unsubscribes it first, and it is never called. *)
Lemma send_skips_registered_listener :
  In (UserRef 2) (live (msg_set st_two 0))
  /\ exists st, send skip_beh 10 0 [7] st_two = Ok true st
       /\ calls_to 2 (trace st) = [].
Proof.
  split; [simpl; tauto|]. eexists; split; [reflexivity|]. reflexivity.
Qed.

(** ** C5: [for..of] over the live Set *)




(** ** C3: emptied Sets stay in the registry *)

(** C3 (amended): [Rx.off] never deletes the Map entry of a message
    ([Channel.messages] is unchanged), so a message whose last listener is
    removed keeps an empty Set, stays listed, and [send] on it answers
    [false].  [Rx.on], [Rx.once], [Rx.onweak] and [Tx.send] (with bodies
    that do not call [clear]) never remove an entry either; only
    [Channel.clear] and [off_all] of the variant remove entries. *)
Theorem off_keeps_message_entries :
  (forall st m r, exists b st', off m r st = Ok b st'
     /\ subs st' = subs st /\ messages st' = messages st)
  /\ (forall st m r, wf_reg st -> live (msg_set st m) = [r] ->
        exists st', off m r st = Ok true st' /\ messages st' = messages st
          /\ In m (messages st') /\ live (msg_set st' m) = []
          /\ forall beh fuel args, send beh fuel m args st' = Ok false st')
  /\ (forall st m r r' st', on m r st = Ok r' st' -> incl (messages st) (messages st'))
  /\ (forall st m u r st', once m u st = Ok r st' -> incl (messages st) (messages st'))
  /\ (forall st m u v st', onweak m u st = Ok v st' -> incl (messages st) (messages st'))
  /\ (forall beh fuel m args st b st', (forall u, ~ In AClear (beh u)) ->
        (send beh fuel m args st = Ok b st' \/ send beh fuel m args st = Exn st') ->
        incl (messages st) (messages st'))
  /\ (forall st, exists st', clear st = Ok tt st' /\ messages st' = [])
  /\ (forall st m, wf_reg st -> exists b st', off_all m st = Ok b st' /\ ~ In m (messages st')).
Proof.
  split.
  { intros st m r. destruct (off_ok st m r) as (b & st' & E).
    destruct (off_ctx _ _ _ _ _ E) as (Hs & _).
    exists b, st'. split; [exact E|]. split; [exact Hs|]. unfold messages. rewrite Hs. reflexivity. }
  split.
  { intros st m r Hwf Hl.
    destruct (off_spec st m r Hwf) as (st' & E & Hl' & _ & Hmsg & _).
    assert (Hb : existsb (fref_eqb r) [r] = true)
      by (simpl; rewrite (proj2 (fref_eqb_spec r r) eq_refl); reflexivity).
    rewrite Hl, Hb in E. rewrite Hl, remove_self in Hl'.
    exists st'. split; [exact E|]. split; [exact Hmsg|]. split.
    - rewrite Hmsg. unfold messages. unfold msg_set in Hl.
      destruct (map_get (subs st) m) as [a|] eqn:Hm; [|simpl in Hl; discriminate].
      exact (in_map fst _ _ (map_get_In _ _ _ Hm)).
    - split; [exact Hl'|]. intros beh fuel args. apply send_empty.
      unfold set_size. rewrite Hl'. reflexivity. }
  split; [exact on_messages_incl|].
  split.
  { intros st m u r st' E. cbv [once bind alloc_tramp] in E.
    exact (on_messages_incl _ _ _ _ _ E). }
  split.
  { intros st m u v st' E. cbv [onweak bind alloc_tramp ret] in E.
    match type of E with context [on ?m ?f ?s] => destruct (on m f s) as [x st1| |] eqn:Eo end;
      try discriminate.
    injection E as _ <-. exact (on_messages_incl _ _ _ _ _ Eo). }
  split.
  { intros beh fuel m args st b st' Hnc Hs.
    assert (K : kept (fun s => incl (messages st) (messages s)) (send beh fuel m args st)).
    { apply send_kept.
      - intros v m' r s b' s' _ Hp E. destruct (off_ctx _ _ _ _ _ E) as (Hs' & _).
        unfold messages in *. rewrite Hs'. exact Hp.
      - intros v m' r s s' _ Hp E. exact (incl_tran Hp (on_messages_incl _ _ _ _ _ E)).
      - intros v s Hin. exfalso. exact (Hnc v Hin).
      - intros k m' v s b' s' _ Hp E. destruct (off_ctx _ _ _ _ _ E) as (Hs' & _).
        unfold messages in *. rewrite Hs'. exact Hp.
      - intros s t Hp. exact Hp.
      - apply incl_refl. }
    destruct Hs as [E|E]; rewrite E in K; exact K. }
  split.
  { intros st. eexists; split; reflexivity. }
  intros st m (Hfst & _).
  destruct (map_delete_spec (subs st) m Hfst) as (_ & D2 & _).
  unfold off_all, messages. destruct (map_delete (subs st) m) as [b s'] eqn:Ed.
  simpl in D2. do 2 eexists; split; [reflexivity|]. simpl. rewrite D2. apply remove_In.
Qed.

Lemma off_keeps_message_entries_witness :
  wf_reg st_one /\ live (msg_set st_one 0) = [UserRef 1]
  /\ exists st', off 0 (UserRef 1) st_one = Ok true st' /\ messages st' = messages st_one
       /\ In 0 (messages st') /\ live (msg_set st' 0) = []
       /\ forall beh fuel args, send beh fuel 0 args st' = Ok false st'.
Proof.
  split; [exact wf_st_one|]. split; [reflexivity|].
  apply (proj1 (proj2 off_keeps_message_entries) st_one 0 (UserRef 1) wf_st_one).
  reflexivity.
Defined.

(** C3 fails: after [on(0, L)] and [off(0, L)] on a fresh channel, message
    0 is still listed by [messages] with an empty Set. *)
Lemma off_last_listener_keeps_message :
  exists st0 st1, on 0 (UserRef 1) empty_state = Ok (UserRef 1) st0
    /\ off 0 (UserRef 1) st0 = Ok true st1
    /\ messages st1 = [0] /\ set_size (msg_set st1 0) = 0.
Proof.
  do 2 eexists. split; [reflexivity|]. split; [reflexivity|]. split; reflexivity.
Qed.
